(** * A shallow embedding of [vector<T>] (src/vector.h)

    The container is three members ([size_], [capacity_], [data_]) over a heap
    of blocks.  A block is a list of slots; a slot is raw memory ([None]) or
    holds a constructed element ([Some v]).  Member functions are computations
    in a state-and-exception monad.  The state is the object ([self]), the
    heap, a trace of the allocation and lifetime events, and two fault plans
    that say which copy constructions and which allocations throw.  Undefined
    behaviour (a null or out-of-bounds access, reading or destroying raw
    memory, constructing over a live element, releasing an address that is
    not allocated) is a third outcome, [Undef].

    Conventions:
    - [std::size_t] is 64 bits wide; every operation of the source that can
      wrap is written with [wrap];
    - [data_] and the pointers handed to the private helpers point at the
      start of a block, so a pointer is a block address or [nullptr];
    - an iterator into the vector is given by its offset from [begin()] at
      the time of the call.  The source's iterators are raw pointers: one
      that is kept across a reallocation dangles, and the position it stood
      for is [begin()] plus the same offset in the new block, which is what
      [insert] returns. *)

From Stdlib Require Import NArith Lia List.
From stdpp Require Import base numbers option list gmap.

Local Open Scope N_scope.

(** ** Element types and [std::size_t] *)

(** [std::size_t] is an unsigned 64-bit integer: arithmetic wraps. *)
Definition SIZE_WIDTH : N := 64.
Definition wrap (n : N) : N := n mod 2 ^ SIZE_WIDTH.

(** [--n] on a [std::size_t]. *)
Definition wrap_pred (n : N) : N := wrap (n + (2 ^ SIZE_WIDTH - 1)).

(** What the template needs of [value_type]: its [sizeof], a positive
    [std::size_t]. *)
Class Element (T : Type) := {
  sizeof : N;
  sizeof_pos : 0 < sizeof;
  sizeof_fits : sizeof < 2 ^ SIZE_WIDTH
}.

(** [int] *)
Global Instance int_Element : Element Z :=
  {| sizeof := 4; sizeof_pos := eq_refl; sizeof_fits := eq_refl |}.

(** ** Memory *)

Definition addr := positive.

(** [T *] pointing at the start of a block; [None] is [nullptr].  An iterator
    is such a pointer with a slot offset. *)
Definition pointer := option addr.

Inductive event :=
  | EvNew (a : addr) (bytes : N)
  | EvDelete (a : addr)
  | EvConstruct (a : addr) (i : nat)
  | EvDestroy (a : addr) (i : nat).

Inductive exn := bad_alloc | ctor_failure.

(** The three data members, in declaration order. *)
Record vec := Vec { size_ : N; capacity_ : N; data_ : pointer }.

Section Model.
Context {T : Type} `{Element T}.

Record state := State {
  self : vec;
  heap : gmap addr (list (option T));
  trace : list event;
  ctor_faults : list bool;
  alloc_faults : list bool
}.

Inductive Outcome (A : Type) :=
  | Val (a : A) (s : state)
  | Exn (e : exn) (s : state)
  | Undef.
Global Arguments Val {A} a s.
Global Arguments Exn {A} e s.
Global Arguments Undef {A}.

Definition M (A : Type) := state -> Outcome A.

Definition ret {A} (a : A) : M A := fun s => Val a s.

Definition bind {A B} (m : M A) (k : A -> M B) : M B := fun s =>
  match m s with
  | Val a s1 => k a s1
  | Exn e s1 => Exn e s1
  | Undef => Undef
  end.

Definition undef {A} : M A := fun _ => Undef.

(** [try { m } catch (...) { cleanup; throw; }] *)
Definition on_exn {A} (m : M A) (cleanup : M unit) : M A := fun s =>
  match m s with
  | Exn e s1 =>
      match cleanup s1 with
      | Val _ s2 => Exn e s2
      | Exn e' s2 => Exn e' s2
      | Undef => Undef
      end
  | r => r
  end.

Notation "x <- m ;; k" := (bind m (fun x => k))
  (at level 100, m at next level, right associativity).
Notation "m ;;; k" := (bind m (fun _ => k))
  (at level 100, right associativity).

(** *** Access to the data members *)

Definition get_size : M N := fun s => Val (size_ (self s)) s.
Definition get_capacity : M N := fun s => Val (capacity_ (self s)) s.
Definition get_data : M pointer := fun s => Val (data_ (self s)) s.

Definition with_self (v : vec) (s : state) : state :=
  State v (heap s) (trace s) (ctor_faults s) (alloc_faults s).

Definition set_size (n : N) : M unit := fun s =>
  Val tt (with_self (Vec n (capacity_ (self s)) (data_ (self s))) s).
Definition set_capacity (n : N) : M unit := fun s =>
  Val tt (with_self (Vec (size_ (self s)) n (data_ (self s))) s).
Definition set_data (p : pointer) : M unit := fun s =>
  Val tt (with_self (Vec (size_ (self s)) (capacity_ (self s)) p) s).

(** *** Fault plans

    Each attempt consumes one entry of the plan; [true] makes the attempt
    throw, and an exhausted plan lets every later attempt succeed. *)
Definition next_fault (plan : list bool) : bool := default false (head plan).

(** *** [operator new] and [operator delete] *)

(** A successful [operator new(bytes)] returns a fresh non-null address, also
    for [bytes = 0]; the block has room for [bytes / sizeof(T)] elements, all
    raw. *)
Definition operator_new (bytes : N) : M pointer := fun s =>
  if next_fault (alloc_faults s) then
    Exn bad_alloc
      (State (self s) (heap s) (trace s) (ctor_faults s) (tail (alloc_faults s)))
  else
    let a := fresh (dom (heap s)) in
    Val (Some a)
      (State (self s)
         (<[a := replicate (N.to_nat (bytes / sizeof)) None]> (heap s))
         (trace s ++ [EvNew a bytes])
         (ctor_faults s) (tail (alloc_faults s))).

(** [operator delete(p)]: nothing for [nullptr]; undefined for an address
    that is not currently allocated. *)
Definition operator_delete (p : pointer) : M unit := fun s =>
  match p with
  | None => Val tt s
  | Some a =>
      match heap s !! a with
      | None => Undef
      | Some _ =>
          Val tt (State (self s) (delete a (heap s)) (trace s ++ [EvDelete a])
                    (ctor_faults s) (alloc_faults s))
      end
  end.

(** *** Element lifetime *)

(** Reading [p[i]]: the slot must hold a constructed element. *)
Definition deref (p : pointer) (i : nat) : M T := fun s =>
  match p with
  | None => Undef
  | Some a =>
      match heap s !! a with
      | Some b => match b !! i with Some (Some v) => Val v s | _ => Undef end
      | None => Undef
      end
  end.

(** [new (&p[i]) value_type(v)]: the slot must exist and be raw; the copy
    constructor throws when the fault plan says so, leaving the slot raw. *)
Definition construct_at (p : pointer) (i : nat) (v : T) : M unit := fun s =>
  match p with
  | None => Undef
  | Some a =>
      match heap s !! a with
      | Some b =>
          match b !! i with
          | Some None =>
              if next_fault (ctor_faults s) then
                Exn ctor_failure
                  (State (self s) (heap s) (trace s) (tail (ctor_faults s))
                     (alloc_faults s))
              else
                Val tt
                  (State (self s) (<[a := <[i := Some v]> b]> (heap s))
                     (trace s ++ [EvConstruct a i]) (tail (ctor_faults s))
                     (alloc_faults s))
          | _ => Undef
          end
      | None => Undef
      end
  end.

(** [p[i].~value_type()]: the slot must hold a constructed element. *)
Definition destroy_at (p : pointer) (i : nat) : M unit := fun s =>
  match p with
  | None => Undef
  | Some a =>
      match heap s !! a with
      | Some b =>
          match b !! i with
          | Some (Some _) =>
              Val tt
                (State (self s) (<[a := <[i := None]> b]> (heap s))
                   (trace s ++ [EvDestroy a i]) (ctor_faults s)
                   (alloc_faults s))
          | _ => Undef
          end
      | None => Undef
      end
  end.

(** [std::swap(p[i], p[j])], taken as non-throwing. *)
Definition swap_slots (p : pointer) (i j : nat) : M unit := fun s =>
  match p with
  | None => Undef
  | Some a =>
      match heap s !! a with
      | Some b =>
          match b !! i, b !! j with
          | Some (Some x), Some (Some y) =>
              Val tt
                (State (self s)
                   (<[a := <[j := Some x]> (<[i := Some y]> b)]> (heap s))
                   (trace s) (ctor_faults s) (alloc_faults s))
          | _, _ => Undef
          end
      | None => Undef
      end
  end.

(** ** Private helpers of [vector] *)

(** [std::destroy] over the reversed range: slots [k-1], ..., [0]. *)
Fixpoint reverse_destroy_from (begin : pointer) (k : nat) : M unit :=
  match k with
  | O => ret tt
  | S k' => destroy_at begin k' ;;; reverse_destroy_from begin k'
  end.

Definition reverse_destroy_n (begin : pointer) (n : N) : M unit :=
  reverse_destroy_from begin (N.to_nat n).

(** The loop of [uninitialized_copy_n_with_reverse_destroy], at index [i] with
    [k] iterations still to run. *)
Fixpoint copy_loop (dest from : pointer) (i k : nat) : M unit :=
  match k with
  | O => ret tt
  | S k' =>
      on_exn (v <- deref from i ;; construct_at dest i v)
             (reverse_destroy_n dest (N.of_nat i)) ;;;
      copy_loop dest from (S i) k'
  end.

Definition uninitialized_copy_n_with_reverse_destroy
    (dest from : pointer) (n : N) : M unit :=
  copy_loop dest from 0 (N.to_nat n).

Definition reallocate (new_capacity : N) : M pointer :=
  new_data <- operator_new (wrap (new_capacity * sizeof)) ;;
  from <- get_data ;;
  n <- get_size ;;
  on_exn (uninitialized_copy_n_with_reverse_destroy new_data from n)
         (operator_delete new_data) ;;;
  ret new_data.

Definition swap_data (new_data : pointer) (new_capacity : N) : M unit :=
  d <- get_data ;;
  n <- get_size ;;
  reverse_destroy_n d n ;;;
  operator_delete d ;;;
  set_data new_data ;;;
  set_capacity new_capacity.

(** ** Public members *)

(** [vector() noexcept = default]: every member value-initialised. *)
Definition empty_vec : vec := Vec 0 0 None.

(** [swap(vector &other)]: [std::swap] of [data_], of [size_] and of
    [capacity_]; the result is the new value of [other]. *)
Definition swap (other : vec) : M vec := fun s =>
  let this := self s in
  Val (Vec (size_ this) (capacity_ this) (data_ this))
      (with_self (Vec (size_ other) (capacity_ other) (data_ other)) s).

(** [vector(const vector &other)]: the members are initialised in declaration
    order, so [capacity_] is initialised from the new [size_]. *)
Definition copy_ctor (other : vec) : M unit :=
  set_size (size_ other) ;;;
  n <- get_size ;;
  set_capacity n ;;;
  p <- (if capacity_ other =? 0 then ret None
        else operator_new (wrap (size_ other * sizeof))) ;;
  set_data p ;;;
  d <- get_data ;;
  on_exn (uninitialized_copy_n_with_reverse_destroy d (data_ other)
            (size_ other))
         (operator_delete d).

(** [vector(vector &&other)]: the members are initialised from those of
    [other], then [other.data_ = nullptr] and [other.size_ = 0]; the result is
    the new value of [other], whose [capacity_] is not assigned. *)
Definition move_ctor (other : vec) : M vec := fun s =>
  Val (Vec 0 (capacity_ other) None)
      (with_self (Vec (size_ other) (capacity_ other) (data_ other)) s).

(** [~vector()] *)
Definition destructor : M unit :=
  d <- get_data ;;
  n <- get_size ;;
  reverse_destroy_n d n ;;;
  operator_delete d.

(** [operator[]] *)
Definition subscript (index : N) : M T :=
  d <- get_data ;;
  deref d (N.to_nat index).

Definition size : M N := get_size.
Definition capacity : M N := get_capacity.
Definition empty : M bool := n <- size ;; ret (n =? 0).

Definition push_back (element : T) : M unit :=
  n <- get_size ;;
  c <- get_capacity ;;
  (if n =? c then
     let new_capacity := wrap (c * 2 + 1) in
     new_data <- reallocate new_capacity ;;
     on_exn (construct_at new_data (N.to_nat n) element)
            (reverse_destroy_n new_data n ;;; operator_delete new_data) ;;;
     swap_data new_data new_capacity
   else
     d <- get_data ;;
     construct_at d (N.to_nat n) element) ;;;
  n' <- get_size ;;
  set_size (wrap (n' + 1)).

Definition pop_back : M unit :=
  n <- get_size ;;
  set_size (wrap_pred n) ;;;
  d <- get_data ;;
  n' <- get_size ;;
  destroy_at d (N.to_nat n').

Definition reserve (new_capacity : N) : M unit :=
  c <- get_capacity ;;
  if c <? new_capacity then
    p <- reallocate new_capacity ;;
    swap_data p new_capacity
  else ret tt.

Definition shrink_to_fit : M unit :=
  e <- empty ;;
  if e then
    set_data None ;;;
    set_capacity 0
  else
    n <- get_size ;;
    c <- get_capacity ;;
    if negb (n =? c) then
      p <- reallocate n ;;
      swap_data p n
    else ret tt.

Definition clear : M unit :=
  d <- get_data ;;
  n <- get_size ;;
  reverse_destroy_n d n ;;;
  set_size 0.

(** The loop of [insert]: [last] walks down from the appended slot, swapping
    with its predecessor, until it meets [ret_it]. *)
Fixpoint insert_loop (d : pointer) (ret_it : nat) (last : nat) : M unit :=
  if Nat.eqb last ret_it then ret tt
  else
    match last with
    | O => undef
    | S last' => swap_slots d last last' ;;; insert_loop d ret_it last'
    end.

(** [insert(pos, value)], with [pos] and the returned iterator as offsets
    from [begin()]: [index = pos - begin()] is [pos], and [begin() + index]
    after the [push_back] is the same offset in the current block.
    [std::prev(end())] needs [size_ > 0]. *)
Definition insert (pos : N) (value : T) : M N :=
  let index := pos in
  push_back value ;;;
  d <- get_data ;;
  n <- get_size ;;
  let ret_it := index in
  (if n =? 0 then undef
   else insert_loop d (N.to_nat ret_it) (N.to_nat (n - 1))) ;;;
  ret ret_it.

(** The loop of [erase] with [k] slots left between [last_] and [end()]. *)
Fixpoint erase_loop (d : pointer) (first_ last_ : nat) (k : nat)
    : M (nat * nat) :=
  match k with
  | O => ret (first_, last_)
  | S k' => swap_slots d first_ last_ ;;; erase_loop d (S first_) (S last_) k'
  end.

(** [std::destroy(first, last)]: forward over [k] slots. *)
Fixpoint destroy_range (d : pointer) (i : nat) (k : nat) : M unit :=
  match k with
  | O => ret tt
  | S k' => destroy_at d i ;;; destroy_range d (S i) k'
  end.

(** [erase(first, last)], with the iterators as offsets from [begin()].
    The loop runs while [last_ != end()], that is [size_ - last] times; when
    [last] lies beyond [end()] the condition never turns false and the walk
    leaves the block. *)
Definition erase_range (first last : N) : M N :=
  let ret_it := first in
  d <- get_data ;;
  n <- get_size ;;
  if n <? last then undef
  else
    r <- erase_loop d (N.to_nat first) (N.to_nat last) (N.to_nat (n - last)) ;;
    let first_ := fst r in
    let last_ := snd r in
    destroy_range d first_ (last_ - first_) ;;;
    set_size (N.of_nat first_) ;;;
    ret ret_it.

(** [erase(pos)] is [erase(pos, std::next(pos))]. *)
Definition erase (pos : N) : M N := erase_range pos (pos + 1).

(** [data()], [begin()] and [end()]; the iterators as offsets. *)
Definition data : M pointer := get_data.
Definition begin_ : M N := ret 0.
Definition end_ : M N := get_size.

(** [front()] is [*data_]. *)
Definition front : M T :=
  d <- get_data ;;
  deref d 0.

(** [back()] is [data_[size_ - 1]], the subtraction in [std::size_t]. *)
Definition back : M T :=
  d <- get_data ;;
  n <- get_size ;;
  deref d (N.to_nat (wrap_pred n)).

(** A member function run on another object [v] of the class, a local
    variable of the caller: [self] is [v] for the duration of the call and
    is put back afterwards, also when the call throws; the result carries the
    members [v] ends with. *)
Definition on_object {A} (v : vec) (m : M A) : M (A * vec) := fun s =>
  match m (with_self v s) with
  | Val a s' => Val (a, self s') (with_self (self s) s')
  | Exn e s' => Exn e (with_self (self s) s')
  | Undef => Undef
  end.

(** [operator=(const vector &other)].  [other] is [None] when the reference
    is to [*this] itself.  Otherwise [vector copy(other)] is constructed (its
    members start out indeterminate and the constructor initialises all
    three), [swap(copy)] exchanges it with [*this], and the destructor of
    [copy] runs when the block is left. *)
Definition copy_assign (other : option vec) : M unit :=
  match other with
  | None => ret tt
  | Some o =>
      r <- on_object empty_vec (copy_ctor o) ;;
      copy <- swap (snd r) ;;
      on_object copy destructor ;;;
      ret tt
  end.

(** [operator=(vector &&other)]; the result is the new value of [other]. *)
Definition move_assign (other : option vec) : M (option vec) :=
  match other with
  | None => ret None
  | Some o =>
      o' <- swap o ;;
      ret (Some o')
  end.

(** [push_back] of each value of a list, in order. *)
Fixpoint push_all (l : list T) : M unit :=
  match l with
  | [] => ret tt
  | x :: l' => push_back x ;;; push_all l'
  end.

(** ** Observations *)

(** The element sequence: slots [0 .. size_) of the block, all constructed. *)
Definition elements (s : state) : option (list T) :=
  let n := N.to_nat (size_ (self s)) in
  match data_ (self s) with
  | None => if decide (n = 0%nat) then Some [] else None
  | Some a =>
      match heap s !! a with
      | Some b =>
          if decide (n <= length b)%nat then mapM id (take n b) else None
      | None => None
      end
  end.

(** ** Representation predicates *)

(** The events of constructing slots [i .. i+k) in order, and of destroying
    slots [k-1 .. 0] in that (reverse) order. *)
Definition construct_events (d : addr) (i k : nat) : list event :=
  EvConstruct d <$> seq i k.
Definition destroy_events (d : addr) (k : nat) : list event :=
  EvDestroy d <$> reverse (seq 0 k).

(** [stores s l free]: the vector holds exactly [l], followed by [free] raw
    slots in its block. *)
Definition stores (s : state) (l : list T) (free : nat) : Prop :=
  size_ (self s) = N.of_nat (length l) /\
  match data_ (self s) with
  | None => l = [] /\ free = 0%nat
  | Some a => heap s !! a = Some ((Some <$> l) ++ replicate free None)
  end.

(** [valid s l]: [s] stores [l] and [capacity_] is the number of slots of the
    block, a size [operator new] can have been asked for. *)
Definition valid (s : state) (l : list T) : Prop :=
  exists free,
    stores s l free /\
    capacity_ (self s) = N.of_nat (length l + free) /\
    capacity_ (self s) * sizeof < 2 ^ SIZE_WIDTH.

(** The number of slots of the block [reallocate n] asks for. *)
Definition slots (n : N) : nat := N.to_nat (wrap (n * sizeof) / sizeof).

(** The events of a relocation into a new block [d] that is rolled back after
    [j] elements were constructed: they are destroyed last to first and the
    block is released. *)
Definition rollback_events (d : addr) (bytes : N) (j : nat) : list event :=
  EvNew d bytes :: construct_events d 0 j ++ destroy_events d j ++ [EvDelete d].

(** The heap once the vector's current block is released, and the events of
    destroying its [n] elements and releasing it. *)
Definition released (s : state) : gmap addr (list (option T)) :=
  match data_ (self s) with
  | Some a => delete a (heap s)
  | None => heap s
  end.
Definition release_events (s : state) (n : nat) : list event :=
  match data_ (self s) with
  | Some a => destroy_events a n ++ [EvDelete a]
  | None => []
  end.

(** The invariants of the data model: [size <= capacity], and the storage
    pointer is null exactly when [capacity == 0], otherwise it points to a
    block of exactly [capacity] slots. *)
Definition invariant (s : state) : Prop :=
  size_ (self s) <= capacity_ (self s) /\
  (data_ (self s) = None <-> capacity_ (self s) = 0) /\
  (forall a, data_ (self s) = Some a ->
     exists b, heap s !! a = Some b /\ N.of_nat (length b) = capacity_ (self s)).

(** The number of [operator new] calls that returned, in a trace. *)
Definition is_new (e : event) : bool :=
  match e with EvNew _ _ => true | _ => false end.
Definition allocations (t : list event) : nat :=
  length (List.filter is_new t).

(** No planned fault among the next attempts. *)
Definition fault_free (plan : list bool) : Prop :=
  Forall (fun b => b = false) plan.

(** The capacity [c] of a vector grown from empty to [n] elements is the
    number [2^k - 1] between [n] and [2n]. *)
Definition grown_capacity (n c : N) : Prop :=
  exists k, c + 1 = 2 ^ k /\ n <= c /\ c <= 2 * n.

(** ** Sample vectors *)

(** The state a computation leaves behind. *)
Definition after {A} (m : M A) (s : state) : state :=
  match m s with
  | Val _ s' => s'
  | Exn _ s' => s'
  | Undef => s
  end.

(** A default-constructed vector on an empty heap, nothing planned to fail. *)
Definition fresh_state : state := State empty_vec ∅ [] [] [].

(** The vector [x] with capacity 1. *)
Definition one_state (x : T) : state := after (push_back x) fresh_state.

(** The same state with another plan of copy-constructor faults. *)
Definition with_ctor_faults (plan : list bool) (s : state) : state :=
  State (self s) (heap s) (trace s) plan (alloc_faults s).

(** An emptied vector that still owns its block: size 0, capacity 1. *)
Definition emptied_state (x : T) : state := after pop_back (one_state x).

(** The vector [x; y; z] with capacity 3. *)
Definition three_state (x y z : T) : state :=
  after (push_all [x; y; z]) fresh_state.

(** The vector [x; y] with capacity 3: [x; y; z] after [pop_back()]. *)
Definition popped_state (x y z : T) : state :=
  after pop_back (three_state x y z).

(** Two vectors on one heap: [*this] is [x], and [other_vec x y] is a
    second vector [y] with a block of its own. *)
Definition other_vec (x y : T) : vec :=
  self (after (push_back y) (with_self empty_vec (one_state x))).
Definition two_state (x y : T) : state :=
  with_self (self (one_state x))
    (after (push_back y) (with_self empty_vec (one_state x))).

(** The storage of an object under construction, beside the vector of
    [s]: the members of [s] become the argument of the constructor. *)
Definition constructing (s : state) : state := with_self empty_vec s.

(** * Proofs *)

Ltac norm_block :=
  repeat (rewrite ?fmap_app, ?fmap_cons, <- ?app_assoc; simpl).

(** ** Running the monad *)

Lemma bind_Val {A B} (m : M A) (k : A -> M B) s a s1 :
  m s = Val a s1 -> bind m k s = k a s1.
Proof. unfold bind. by intros ->. Qed.

Lemma bind_Exn {A B} (m : M A) (k : A -> M B) s e s1 :
  m s = Exn e s1 -> bind m k s = Exn e s1.
Proof. unfold bind. by intros ->. Qed.

Lemma bind_Undef {A B} (m : M A) (k : A -> M B) s :
  m s = Undef -> bind m k s = Undef.
Proof. unfold bind. by intros ->. Qed.

Lemma state_eta s :
  State (self s) (heap s) (trace s) (ctor_faults s) (alloc_faults s) = s.
Proof. by destruct s. Qed.

Lemma destroy_events_S d k :
  destroy_events d (S k) = EvDestroy d k :: destroy_events d k.
Proof.
  unfold destroy_events. rewrite seq_S, reverse_app. reflexivity.
Qed.

Lemma construct_events_S d i k :
  construct_events d i (S k) = EvConstruct d i :: construct_events d (S i) k.
Proof. reflexivity. Qed.

Lemma construct_events_snoc d i k :
  construct_events d i (S k)
  = construct_events d i k ++ [EvConstruct d (i + k)].
Proof. unfold construct_events. by rewrite seq_S, fmap_app. Qed.

Lemma next_fault_false_lookup plan j :
  next_fault plan = false ->
  tail plan !! j = plan !! S j /\ plan !! 0%nat <> Some true.
Proof.
  destruct plan as [|b plan]; simpl; [by rewrite lookup_nil|].
  unfold next_fault; simpl. intros ->. split; [done|congruence].
Qed.

Lemma next_fault_true_lookup plan :
  next_fault plan = true -> plan !! 0%nat = Some true.
Proof. destruct plan as [|b plan]; unfold next_fault; simpl; congruence. Qed.

Lemma drop_tail {A} (k : nat) (plan : list A) :
  drop k (tail plan) = drop (S k) plan.
Proof. destruct plan; simpl; [by rewrite drop_nil|done]. Qed.

(** ** The private helpers *)

(** Destroying [k] constructed slots in reverse leaves them raw. *)
Lemma reverse_destroy_from_run d (vs : list T) : forall rest s,
  heap s !! d = Some ((Some <$> vs) ++ rest) ->
  reverse_destroy_from (Some d) (length vs) s =
    Val tt (State (self s) (<[d := replicate (length vs) None ++ rest]> (heap s))
              (trace s ++ destroy_events d (length vs))
              (ctor_faults s) (alloc_faults s)).
Proof.
  induction vs as [|v vs IH] using rev_ind; intros rest s Hd.
  - simpl. unfold ret, destroy_events. simpl. rewrite app_nil_r.
    simpl in Hd. rewrite insert_id by done. by rewrite state_eta.
  - rewrite length_app, Nat.add_1_r. simpl.
    assert (Hslot : ((Some <$> vs ++ [v]) ++ rest) !! length vs = Some (Some v)).
    { rewrite fmap_app, <- app_assoc.
      rewrite lookup_app_r by (rewrite length_fmap; lia).
      by rewrite length_fmap, Nat.sub_diag. }
    erewrite bind_Val; cycle 1.
    { unfold destroy_at. rewrite Hd, Hslot. reflexivity. }
    rewrite (IH (None :: rest)); simpl.
    + rewrite insert_insert_eq, destroy_events_S, <- app_assoc. simpl.
      do 2 f_equal. f_equal.
      clear. induction (length vs); simpl; congruence.
    + rewrite lookup_insert_eq. f_equal.
      rewrite fmap_app, <- app_assoc. simpl.
      rewrite insert_app_r_alt by (rewrite length_fmap; lia).
      by rewrite length_fmap, Nat.sub_diag.
Qed.

Lemma reverse_destroy_n_run d (vs : list T) rest s k :
  heap s !! d = Some ((Some <$> vs) ++ rest) ->
  length vs = k ->
  reverse_destroy_n (Some d) (N.of_nat k) s =
    Val tt (State (self s) (<[d := replicate k None ++ rest]> (heap s))
              (trace s ++ destroy_events d k)
              (ctor_faults s) (alloc_faults s)).
Proof.
  intros Hd <-. unfold reverse_destroy_n. rewrite Nat2N.id.
  by apply reverse_destroy_from_run.
Qed.

(** The copy loop from block [a] into block [d], at index [i] with [k]
    elements to go and [m] raw slots left in [d]: it succeeds, or it fails at
    the first planned fault with [d] raw again, or it runs out of the
    block. *)
Lemma copy_loop_spec d a (l : list T) restf : forall k i m s,
  heap s !! a = Some ((Some <$> l) ++ restf) ->
  heap s !! d = Some ((Some <$> take i l) ++ replicate m None) ->
  a <> d ->
  (i + k = length l)%nat ->
  match copy_loop (Some d) (Some a) i k s with
  | Val _ s' =>
      (k <= m)%nat /\
      s' = State (self s)
             (<[d := (Some <$> l) ++ replicate (m - k) None]> (heap s))
             (trace s ++ construct_events d i k)
             (drop k (ctor_faults s)) (alloc_faults s)
  | Exn e s' =>
      e = ctor_failure /\
      exists j, (j < k)%nat /\ (j < m)%nat /\ ctor_faults s !! j = Some true /\
        s' = State (self s)
               (<[d := replicate (i + m) None]> (heap s))
               (trace s ++ construct_events d i j ++ destroy_events d (i + j))
               (drop (S j) (ctor_faults s)) (alloc_faults s)
  | Undef => (m < k)%nat
  end.
Proof.
  induction k as [|k IH]; intros i m s Ha Hd Hne Hlen.
  - simpl. unfold ret. split; [lia|].
    rewrite Nat.add_0_r in Hlen. subst i. rewrite firstn_all in Hd.
    rewrite Nat.sub_0_r, insert_id by done.
    unfold construct_events. simpl. rewrite app_nil_r, drop_0.
    by rewrite state_eta.
  - assert (Hi : (i < length l)%nat) by lia.
    destruct (lookup_lt_is_Some_2 l i Hi) as [v Hv].
    assert (Hsrc : ((Some <$> l) ++ restf) !! i = Some (Some v)).
    { rewrite lookup_app_l by (rewrite length_fmap; lia).
      by rewrite list_lookup_fmap, Hv. }
    assert (Hti : length (Some <$> take i l) = i).
    { rewrite length_fmap, length_take. lia. }
    cbn [copy_loop].
    destruct m as [|m].
    + (* no raw slot left *)
      rewrite bind_Undef; [lia|].
      unfold on_exn. erewrite bind_Val; cycle 1.
      { unfold deref. rewrite Ha, Hsrc. reflexivity. }
      unfold construct_at. rewrite Hd. simpl. rewrite app_nil_r.
      rewrite lookup_ge_None_2 by lia. reflexivity.
    + assert (Hdst : ((Some <$> take i l) ++ replicate (S m) None) !! i
                     = Some (@None T)).
      { rewrite lookup_app_r by lia. by rewrite Hti, Nat.sub_diag. }
      destruct (next_fault (ctor_faults s)) eqn:Hf.
      * (* the copy constructor throws at index [i] *)
        rewrite bind_Exn with (e := ctor_failure)
          (s1 := State (self s)
                   (<[d := replicate (i + S m) None]> (heap s))
                   (trace s ++ destroy_events d i)
                   (tail (ctor_faults s)) (alloc_faults s)).
        { split; [done|]. exists 0%nat.
          split; [lia|]. split; [lia|].
          split; [by apply next_fault_true_lookup|].
          unfold construct_events. simpl. rewrite Nat.add_0_r.
          by rewrite <- drop_tail, drop_0. }
        unfold on_exn. erewrite bind_Val; cycle 1.
        { unfold deref. rewrite Ha, Hsrc. reflexivity. }
        unfold construct_at. rewrite Hd, Hdst, Hf.
        rewrite length_fmap in Hti.
        rewrite (reverse_destroy_n_run d (take i l) (replicate (S m) None) _ i)
          by done.
        simpl. rewrite replicate_add. reflexivity.
      * (* slot [i] is constructed; the loop goes on *)
        set (s1 := State (self s)
                     (<[d := (Some <$> take (S i) l) ++ replicate m None]> (heap s))
                     (trace s ++ [EvConstruct d i])
                     (tail (ctor_faults s)) (alloc_faults s)).
        rewrite bind_Val with (a := tt) (s1 := s1); cycle 1.
        { unfold on_exn. erewrite bind_Val; cycle 1.
          { unfold deref. rewrite Ha, Hsrc. reflexivity. }
          unfold construct_at. rewrite Hd, Hdst, Hf. unfold s1.
          do 3 f_equal.
          rewrite (take_S_r _ _ _ Hv), fmap_app, <- app_assoc.
          rewrite insert_app_r_alt by lia.
          by rewrite Hti, Nat.sub_diag. }
        specialize (IH (S i) m s1).
        destruct (next_fault_false_lookup _ 0 Hf) as [_ Hf0].
        destruct (copy_loop (Some d) (Some a) (S i) k s1) as [[] s'|e s'|];
          unfold s1 in IH; simpl in IH.
        -- destruct IH as [Hkm ->];
             [by rewrite lookup_insert_ne| by rewrite lookup_insert_eq|done|lia|].
           split; [lia|].
           rewrite insert_insert_eq, construct_events_S, <- app_assoc, drop_tail.
           reflexivity.
        -- destruct IH as [-> (j & Hjk & Hjm & Hfj & ->)];
             [by rewrite lookup_insert_ne| by rewrite lookup_insert_eq|done|lia|].
           split; [done|]. exists (S j).
           split; [lia|]. split; [lia|].
           split.
           { by rewrite <- (proj1 (next_fault_false_lookup _ j Hf)). }
           rewrite insert_insert_eq, construct_events_S, <- !app_assoc, drop_tail.
           rewrite !Nat.add_succ_r. reflexivity.
        -- assert (m < k)%nat; [|lia].
           apply IH;
             [by rewrite lookup_insert_ne| by rewrite lookup_insert_eq|done|lia].
Qed.

Lemma operator_new_fresh (s : state) : heap s !! fresh (dom (heap s)) = None.
Proof. apply not_elem_of_dom, is_fresh. Qed.

(** [reallocate] on a vector that stores [l]: a fresh block with the copies,
    or the state as before, or a block too small for [l]. *)
Lemma reallocate_spec s (l : list T) free n :
  stores s l free ->
  match reallocate n s with
  | Val p s' =>
      exists d, p = Some d /\ heap s !! d = None /\ data_ (self s) <> Some d /\
        (length l <= slots n)%nat /\
        s' = State (self s)
               (<[d := (Some <$> l) ++ replicate (slots n - length l) None]> (heap s))
               (trace s ++ EvNew d (wrap (n * sizeof))
                        :: construct_events d 0 (length l))
               (drop (length l) (ctor_faults s)) (tail (alloc_faults s))
  | Exn e s' =>
      self s' = self s /\ heap s' = heap s /\
      alloc_faults s' = tail (alloc_faults s) /\
      match e with
      | bad_alloc =>
          next_fault (alloc_faults s) = true /\
          trace s' = trace s /\ ctor_faults s' = ctor_faults s
      | ctor_failure =>
          exists d j, (j < length l)%nat /\ ctor_faults s !! j = Some true /\
            heap s !! d = None /\
            trace s' = trace s ++ rollback_events d (wrap (n * sizeof)) j /\
            ctor_faults s' = drop (S j) (ctor_faults s)
      end
  | Undef => (slots n < length l)%nat
  end.
Proof.
  intros [Hsz Hdata]. unfold reallocate, operator_new.
  destruct (next_fault (alloc_faults s)) eqn:Hf.
  { rewrite bind_Exn with (e := bad_alloc)
      (s1 := State (self s) (heap s) (trace s) (ctor_faults s)
               (tail (alloc_faults s))) by (by rewrite Hf).
    simpl. by repeat split. }
  set (d := fresh (dom (heap s))).
  assert (Hd : heap s !! d = None) by apply operator_new_fresh.
  set (bytes := wrap (n * sizeof)).
  set (s1 := State (self s)
               (<[d := replicate (slots n) None]> (heap s))
               (trace s ++ [EvNew d bytes]) (ctor_faults s)
               (tail (alloc_faults s))).
  rewrite bind_Val with (a := Some d) (s1 := s1) by (by rewrite Hf).
  unfold get_data, get_size.
  rewrite bind_Val with (a := data_ (self s)) (s1 := s1) by done.
  rewrite bind_Val with (a := size_ (self s)) (s1 := s1) by done.
  unfold uninitialized_copy_n_with_reverse_destroy.
  rewrite Hsz, Nat2N.id.
  destruct (data_ (self s)) as [a|] eqn:Ha.
  - assert (Hne : a <> d) by congruence.
    pose proof (copy_loop_spec d a l (replicate free None) (length l) 0
                  (slots n) s1) as Hloop.
    unfold bind at 1, on_exn.
    destruct (copy_loop (Some d) (Some a) 0 (length l) s1) as [[] s'|e s'|];
      unfold s1 in Hloop; simpl in Hloop.
    + destruct Hloop as [Hle ->];
        [by rewrite lookup_insert_ne|by rewrite lookup_insert_eq|done|done|].
      unfold ret. exists d. repeat split; [done|congruence|done|].
      by rewrite insert_insert_eq, <- app_assoc.
    + destruct Hloop as [-> (j & Hj & Hjm & Hfj & ->)];
        [by rewrite lookup_insert_ne|by rewrite lookup_insert_eq|done|done|].
      unfold operator_delete. simpl. rewrite lookup_insert_eq. simpl.
      rewrite !insert_insert_eq, delete_insert_eq, delete_id by done.
      repeat split. exists d, j. repeat split; [done|done|done|].
      unfold rollback_events. by rewrite <- !app_assoc.
    + apply Hloop;
        [by rewrite lookup_insert_ne|by rewrite lookup_insert_eq|done|done].
  - destruct Hdata as [-> _]. simpl. unfold bind, on_exn, ret. simpl.
    exists d. repeat split; [done|done|lia|].
    unfold s1. by rewrite Nat.sub_0_r, drop_0.
Qed.

Lemma swap_data_run s (l : list T) free d c :
  stores s l free ->
  swap_data (Some d) c s =
    Val tt (State (Vec (size_ (self s)) c (Some d)) (released s)
              (trace s ++ release_events s (length l))
              (ctor_faults s) (alloc_faults s)).
Proof.
  intros [Hsz Hdata]. unfold swap_data, get_data, get_size.
  rewrite bind_Val with (a := data_ (self s)) (s1 := s) by done.
  rewrite bind_Val with (a := size_ (self s)) (s1 := s) by done.
  unfold released, release_events.
  destruct (data_ (self s)) as [a|] eqn:Ha.
  - rewrite Hsz.
    erewrite bind_Val; cycle 1.
    { by eapply reverse_destroy_n_run. }
    erewrite bind_Val; cycle 1.
    { unfold operator_delete. simpl. rewrite lookup_insert_eq. reflexivity. }
    unfold bind, set_data, set_capacity, with_self. simpl.
    by rewrite delete_insert_eq, <- app_assoc, ?Hsz.
  - destruct Hdata as [-> _]. rewrite Hsz. simpl.
    unfold bind, reverse_destroy_n, set_data, set_capacity, with_self, ret.
    simpl. by rewrite app_nil_r, ?Hsz.
Qed.

(** ** Size arithmetic *)

Lemma wrap_small n : n < 2 ^ SIZE_WIDTH -> wrap n = n.
Proof. apply N.mod_small. Qed.

Lemma wrap_le n : wrap n <= n.
Proof. apply N.Div0.mod_le. Qed.

Lemma wrap_lt n : wrap n < 2 ^ SIZE_WIDTH.
Proof. by apply N.mod_lt. Qed.

(** When [wrap] does change its argument, it takes off a modulus at least. *)
Lemma wrap_cases n : wrap n = n \/ wrap n + 2 ^ SIZE_WIDTH <= n.
Proof.
  unfold wrap. pose proof (N.div_mod n (2 ^ SIZE_WIDTH) ltac:(done)) as Hdm.
  generalize dependent (2 ^ SIZE_WIDTH). intros m.
  generalize (n / m) (n mod m). intros q r Hdm.
  destruct (N.eq_dec q 0) as [Hq|Hq].
  - left. rewrite Hq, N.mul_0_r in Hdm. lia.
  - right.
    assert (m * 1 <= m * q) by (apply N.mul_le_mono_l; lia).
    lia.
Qed.

Lemma slots_bytes n : N.of_nat (slots n) * sizeof <= wrap (n * sizeof).
Proof.
  unfold slots. rewrite N2Nat.id, N.mul_comm.
  apply N.Div0.mul_div_le.
Qed.

Lemma slots_exact n : n * sizeof < 2 ^ SIZE_WIDTH -> slots n = N.to_nat n.
Proof.
  intros Hn. unfold slots. rewrite wrap_small by done.
  rewrite N.div_mul; [done|]. pose proof sizeof_pos. lia.
Qed.

Lemma fits_size_t n : n * sizeof < 2 ^ SIZE_WIDTH -> n < 2 ^ SIZE_WIDTH.
Proof.
  intros Hn. pose proof sizeof_pos.
  assert (n * 1 <= n * sizeof) by (apply N.mul_le_mono_l; lia). lia.
Qed.

(** A grown block that has room for one element more than the old one was
    asked for without wrap-around. *)
Lemma growth_no_wrap c :
  c * sizeof < 2 ^ SIZE_WIDTH ->
  (N.to_nat c < slots (wrap (c * 2 + 1)))%nat ->
  wrap (c * 2 + 1) = c * 2 + 1 /\ (c * 2 + 1) * sizeof < 2 ^ SIZE_WIDTH.
Proof.
  intros Hc Hroom. pose proof sizeof_pos as Hpos.
  pose proof (fits_size_t _ Hc) as Hc'.
  pose proof (slots_bytes (wrap (c * 2 + 1))) as Hb.
  assert (Hs : (c + 1) * sizeof <= N.of_nat (slots (wrap (c * 2 + 1))) * sizeof).
  { apply N.mul_le_mono_r. lia. }
  assert (Hw : wrap (c * 2 + 1) = c * 2 + 1).
  { destruct (wrap_cases (c * 2 + 1)) as [|Hcase]; [done|].
    pose proof (wrap_le (wrap (c * 2 + 1) * sizeof)).
    assert (wrap (c * 2 + 1) * sizeof <= c * sizeof)
      by (apply N.mul_le_mono_r; lia).
    lia. }
  split; [done|]. rewrite Hw in Hb, Hs.
  destruct (wrap_cases ((c * 2 + 1) * sizeof)) as [Hcase|Hcase].
  - rewrite <- Hcase. apply wrap_lt.
  - lia.
Qed.

Lemma grown_slots c :
  (c * 2 + 1) * sizeof < 2 ^ SIZE_WIDTH ->
  slots (wrap (c * 2 + 1)) = N.to_nat (c * 2 + 1).
Proof.
  intros Hc. rewrite wrap_small by by apply fits_size_t.
  by apply slots_exact.
Qed.

(** ** [push_back] *)

Lemma push_back_spec s (l : list T) x :
  valid s l ->
  match push_back x s with
  | Val _ s' =>
      valid s' (l ++ [x]) /\
      capacity_ (self s') =
        (if size_ (self s) =? capacity_ (self s)
         then capacity_ (self s) * 2 + 1 else capacity_ (self s)) /\
      (exists kc, ctor_faults s' = drop kc (ctor_faults s)) /\
      (exists ka, alloc_faults s' = drop ka (alloc_faults s)) /\
      (if size_ (self s) =? capacity_ (self s) then
         exists d, heap s !! d = None /\ data_ (self s') = Some d /\
           trace s' = trace s ++
             EvNew d (wrap (wrap (capacity_ (self s) * 2 + 1) * sizeof))
             :: construct_events d 0 (S (length l))
             ++ release_events s (length l)
       else
         data_ (self s') = data_ (self s) /\
         alloc_faults s' = alloc_faults s /\
         exists a, data_ (self s) = Some a /\
           trace s' = trace s ++ [EvConstruct a (length l)]) /\
      released s' = released s
  | Exn e s' =>
      self s' = self s /\ heap s' = heap s /\
      match e with
      | bad_alloc =>
          trace s' = trace s /\ next_fault (alloc_faults s) = true /\
          size_ (self s) = capacity_ (self s)
      | ctor_failure =>
          (exists j, (j <= length l)%nat /\ ctor_faults s !! j = Some true) /\
          if size_ (self s) =? capacity_ (self s) then
            exists d j, (j <= length l)%nat /\ heap s !! d = None /\
              trace s' = trace s ++
                rollback_events d
                  (wrap (wrap (capacity_ (self s) * 2 + 1) * sizeof)) j
          else trace s' = trace s
      end
  | Undef =>
      size_ (self s) = capacity_ (self s) /\
      2 ^ SIZE_WIDTH <= (capacity_ (self s) * 2 + 1) * sizeof
  end.
Proof.
  intros (free & [Hsz Hdata] & Hcap & Hfit).
  assert (Hstores : stores s l free) by done.
  pose proof (fits_size_t _ Hfit) as Hc.
  unfold push_back.
  cbv beta iota delta [bind get_size get_capacity].
  destruct (size_ (self s) =? capacity_ (self s)) eqn:Hgrow.
  - (* growth *)
    apply N.eqb_eq in Hgrow.
    set (c := capacity_ (self s)) in *.
    set (c' := wrap (c * 2 + 1)).
    assert (Hundef : (slots c' <= length l)%nat ->
                     2 ^ SIZE_WIDTH <= (c * 2 + 1) * sizeof).
    { intros Hs. apply N.le_ngt. intros Hlt.
      unfold c' in Hs. rewrite grown_slots in Hs by done. lia. }
    pose proof (reallocate_spec s l free c' Hstores) as Hre.
    destruct (reallocate c' s) as [p s1|e s1|].
    + destruct Hre as (d & -> & Hd & Hnd & Hle & ->).
      rewrite Hsz, Nat2N.id.
      unfold on_exn, construct_at. cbn [heap ctor_faults self trace alloc_faults].
      rewrite lookup_insert_eq.
      rewrite lookup_app_r by (rewrite length_fmap; lia).
      rewrite length_fmap, Nat.sub_diag.
      destruct (slots c' - length l)%nat as [|m] eqn:Hm; cbn [replicate lookup list_lookup].
      { split; [congruence|]. apply Hundef. lia. }
      destruct (growth_no_wrap c Hfit) as [Hw Hfit']; [fold c'; lia|].
      pose proof (grown_slots c Hfit') as Hslots. fold c' in Hslots, Hw.
      pose proof (fits_size_t _ Hfit') as Hc2.
      assert (Hlc : N.of_nat (length l) = c) by congruence.
      destruct (next_fault (drop (length l) (ctor_faults s))) eqn:Hf.
      * (* the new element's constructor throws *)
        unfold bind.
        erewrite reverse_destroy_n_run;
          [|cbn [heap]; apply lookup_insert_eq|done].
        unfold operator_delete. cbn [heap ctor_faults self trace alloc_faults].
        rewrite lookup_insert_eq.
        rewrite !insert_insert_eq, delete_insert_eq, delete_id by done.
        repeat split.
        { exists (length l). split; [done|].
          apply next_fault_true_lookup in Hf.
          by rewrite lookup_drop, Nat.add_0_r in Hf. }
        exists d, (length l). split; [done|]. split; [done|].
        unfold rollback_events. cbn [trace]. by rewrite <- !app_assoc.
      * (* the new block replaces the old one *)
        set (s2 := State _ _ _ _ _).
        assert (Hst2 : stores s2 l free).
        { split; [done|]. unfold s2. cbn [self heap].
          destruct (data_ (self s)) as [a|] eqn:Ha; [|done].
          rewrite !lookup_insert_ne by congruence. done. }
        rewrite (swap_data_run s2 l free d c' Hst2).
        cbv beta iota delta [set_size with_self]. unfold released.
        clear Hst2. subst s2.
        unfold release_events.
        cbn [self heap ctor_faults alloc_faults trace size_ capacity_ data_].
        split; [|split; [done|split; [|split; [|split]]]].
        -- exists m. split; [split|split].
           ++ cbn [self size_]. rewrite Hsz, length_app. simpl.
              rewrite wrap_small by lia. lia.
           ++ cbn [self data_ heap].
              assert (Hblock : <[length l := Some x]>
                        ((Some <$> l) ++ None :: replicate m None)
                      = (Some <$> l ++ [x]) ++ replicate m None).
              { rewrite insert_app_r_alt by (rewrite length_fmap; lia).
                rewrite length_fmap, Nat.sub_diag, fmap_app, <- app_assoc.
                reflexivity. }
              destruct (data_ (self s)) as [a|] eqn:Ha.
              ** rewrite lookup_delete_ne by congruence.
                 by rewrite insert_insert_eq, lookup_insert_eq, Hblock.
              ** by rewrite insert_insert_eq, lookup_insert_eq, Hblock.
           ++ cbn [self capacity_]. rewrite length_app. simpl. lia.
           ++ cbn [self capacity_]. by rewrite Hw.
        -- exists (length l + 1)%nat.
           by rewrite <- (drop_0 (tail _)), drop_tail, drop_drop.
        -- exists 1%nat. by rewrite <- drop_tail, drop_0.
        -- exists d. split; [done|]. split; [done|].
           by rewrite construct_events_snoc, <- !app_assoc.
        -- unfold released. cbn [self data_ heap].
           rewrite insert_insert_eq.
           destruct (data_ (self s)) as [a|] eqn:Ha.
           ++ rewrite delete_insert_ne, delete_insert_eq by congruence.
              apply delete_id. by rewrite lookup_delete_ne by congruence.
           ++ by rewrite delete_insert_eq, delete_id.
    + destruct Hre as (-> & -> & Haf & Hre). split; [done|]. split; [done|].
      destruct e.
      * destruct Hre as (? & ? & ?). by repeat split.
      * destruct Hre as (d & j & Hj & Hfj & Hd & Htr & Hcf).
        split; [exists j; split; [lia|done]|].
        exists d, j. split; [lia|done].
    + split; [congruence|]. apply Hundef. lia.
  - (* room left *)
    apply N.eqb_neq in Hgrow.
    destruct (data_ (self s)) as [a|] eqn:Ha; cycle 1.
    { destruct Hdata as [-> ->]. simpl in *. lia. }
    destruct free as [|m]; [lia|].
    cbv beta iota delta [get_data]. rewrite Ha, Hsz, Nat2N.id.
    unfold construct_at. rewrite Hdata.
    rewrite lookup_app_r by (rewrite length_fmap; lia).
    rewrite length_fmap, Nat.sub_diag. cbn [replicate lookup list_lookup].
    destruct (next_fault (ctor_faults s)) eqn:Hf.
    + cbn [self heap trace]. repeat split.
      exists 0%nat. split; [lia|]. by apply next_fault_true_lookup.
    + cbv beta iota delta [set_size with_self].
      cbn [self heap ctor_faults alloc_faults trace size_ capacity_ data_].
      rewrite Ha.
      split; [|split; [done|split; [|split; [|split]]]].
      * exists m. split; [split|split].
        -- cbn [self size_]. rewrite Hsz, length_app. simpl.
           rewrite wrap_small by lia. lia.
        -- cbn [self data_ heap]. rewrite lookup_insert_eq.
           rewrite insert_app_r_alt by (rewrite length_fmap; lia).
           rewrite length_fmap, Nat.sub_diag, fmap_app, <- app_assoc.
           reflexivity.
        -- cbn [self capacity_]. rewrite length_app. simpl. lia.
        -- done.
      * exists 1%nat. by rewrite <- drop_tail, drop_0.
      * exists 0%nat. by rewrite drop_0.
      * split; [done|]. split; [done|]. by exists a.
      * unfold released. cbn [self data_ heap]. rewrite Ha.
        by rewrite delete_insert_eq.
Qed.

(** ** What a valid vector shows *)

Lemma stores_elements s (l : list T) free :
  stores s l free -> elements s = Some l.
Proof.
  intros [Hsz Hdata]. unfold elements. rewrite Hsz, Nat2N.id.
  destruct (data_ (self s)) as [a|].
  - rewrite Hdata.
    rewrite decide_True by (rewrite length_app, length_fmap; lia).
    rewrite take_app_length' by by rewrite length_fmap.
    by apply mapM_fmap_Some.
  - destruct Hdata as [-> _]. reflexivity.
Qed.

Lemma valid_elements s (l : list T) : valid s l -> elements s = Some l.
Proof. intros (free & Hst & _). by eapply stores_elements. Qed.

Lemma valid_size s (l : list T) :
  valid s l -> size s = Val (N.of_nat (length l)) s.
Proof. intros (free & [Hsz _] & _). unfold size, get_size. by rewrite Hsz. Qed.

Lemma stores_subscript s (l : list T) free i x :
  stores s l free -> l !! i = Some x -> subscript (N.of_nat i) s = Val x s.
Proof.
  intros [Hsz Hdata] Hi. unfold subscript, bind, get_data, deref.
  rewrite Nat2N.id.
  destruct (data_ (self s)) as [a|].
  - rewrite Hdata, lookup_app_l
      by (rewrite length_fmap; by eapply lookup_lt_Some).
    by rewrite list_lookup_fmap, Hi.
  - destruct Hdata as [-> _]. by rewrite lookup_nil in Hi.
Qed.

Lemma valid_empty s : self s = empty_vec -> valid s [].
Proof.
  intros Hs. exists 0%nat. unfold stores. rewrite Hs. simpl.
  repeat split; done.
Qed.

Lemma fault_free_next plan : fault_free plan -> next_fault plan = false.
Proof. by destruct 1. Qed.

Lemma fault_free_lookup plan j : fault_free plan -> plan !! j <> Some true.
Proof.
  intros Hp Hj. unfold fault_free in Hp. rewrite Forall_lookup in Hp.
  by specialize (Hp j true Hj).
Qed.

Lemma fault_free_drop plan k : fault_free plan -> fault_free (drop k plan).
Proof. apply Forall_drop. Qed.

(** [push_back] succeeds when nothing is planned to fail and the grown block
    can be asked for. *)
Lemma push_back_progress s (l : list T) x :
  valid s l ->
  fault_free (ctor_faults s) -> fault_free (alloc_faults s) ->
  (size_ (self s) = capacity_ (self s) ->
   (capacity_ (self s) * 2 + 1) * sizeof < 2 ^ SIZE_WIDTH) ->
  exists s', push_back x s = Val tt s'.
Proof.
  intros Hv Hcf Haf Hfit. pose proof (push_back_spec s l x Hv) as Hpb.
  destruct (push_back x s) as [[] s'|e s'|].
  - by exists s'.
  - destruct Hpb as (_ & _ & Hpb). destruct e.
    + destruct Hpb as (_ & Hpb & _). by rewrite fault_free_next in Hpb.
    + destruct Hpb as [(j & _ & Hj) _]. by apply fault_free_lookup in Hj.
  - destruct Hpb as [Heq Hpb]. specialize (Hfit Heq). lia.
Qed.

Lemma grown_capacity_closed n c : grown_capacity n c -> c = 2 ^ N.size n - 1.
Proof.
  intros (k & Hk & Hn & Hc).
  pose proof (N.size_gt n) as Hgt. pose proof (N.size_le n) as Hle.
  rewrite N.succ_double_spec in Hle.
  assert (k = N.size n); [|subst k; lia].
  destruct (N.lt_trichotomy k (N.size n)) as [Hlt|[Heq|Hlt]]; [|done|].
  - assert (2 ^ N.succ k <= 2 ^ N.size n)
      by (apply N.pow_le_mono_r; lia).
    rewrite N.pow_succ_r' in *. lia.
  - assert (2 ^ N.succ (N.size n) <= 2 ^ k)
      by (apply N.pow_le_mono_r; lia).
    rewrite N.pow_succ_r' in *. lia.
Qed.

Lemma grown_capacity_step n c :
  grown_capacity n c ->
  grown_capacity (n + 1) (if n =? c then c * 2 + 1 else c).
Proof.
  intros (k & Hk & Hn & Hc). destruct (n =? c) eqn:Heq.
  - apply N.eqb_eq in Heq. subst c. exists (N.succ k).
    rewrite N.pow_succ_r'. lia.
  - apply N.eqb_neq in Heq. exists k. lia.
Qed.

Lemma push_all_spec (xs : list T) : forall s l,
  valid s l ->
  match push_all xs s with
  | Val _ s' =>
      valid s' (l ++ xs) /\
      (grown_capacity (size_ (self s)) (capacity_ (self s)) ->
       grown_capacity (size_ (self s')) (capacity_ (self s')))
  | _ => True
  end.
Proof.
  induction xs as [|x xs IH]; intros s l Hv.
  - simpl. unfold ret. by rewrite app_nil_r.
  - cbn [push_all]. unfold bind.
    pose proof (push_back_spec s l x Hv) as Hpb.
    destruct (push_back x s) as [[] s1|e s1|]; [|done|done].
    destruct Hpb as (Hv1 & Hcap & _).
    specialize (IH s1 (l ++ [x]) Hv1).
    destruct (push_all xs s1) as [[] s'|e s'|]; [|done|done].
    destruct IH as [Hv' Hg]. rewrite <- app_assoc in Hv'. split; [done|].
    intros Hg0. apply Hg. rewrite Hcap.
    destruct Hv as (? & [Hsz _] & _). destruct Hv1 as (? & [-> _] & _).
    rewrite length_app. simpl.
    replace (N.of_nat (length l + 1)) with (size_ (self s) + 1) by lia.
    by apply grown_capacity_step.
Qed.

Lemma push_all_progress (xs : list T) : forall s l,
  valid s l ->
  fault_free (ctor_faults s) -> fault_free (alloc_faults s) ->
  2 * N.of_nat (length l + length xs) * sizeof <= 2 ^ SIZE_WIDTH ->
  exists s', push_all xs s = Val tt s'.
Proof.
  induction xs as [|x xs IH]; intros s l Hv Hcf Haf Hfit.
  - by exists s.
  - cbn [push_all]. unfold bind.
    destruct (push_back_progress s l x Hv Hcf Haf) as [s1 Hs1].
    { intros Heq. destruct Hv as (? & [Hsz _] & _).
      rewrite <- Heq, Hsz. simpl in Hfit.
      pose proof sizeof_pos.
      assert ((N.of_nat (length l) * 2 + 1) * sizeof
              < 2 * N.of_nat (length l + S (length xs)) * sizeof);
        [|lia].
      apply N.mul_lt_mono_pos_r; lia. }
    pose proof (push_back_spec s l x Hv) as Hpb. rewrite Hs1 in *.
    destruct Hpb as (Hv1 & _ & [kc Hkc] & [ka Hka] & _).
    apply (IH s1 (l ++ [x])); [done|..].
    + rewrite Hkc. by apply fault_free_drop.
    + rewrite Hka. by apply fault_free_drop.
    + rewrite length_app. simpl in *.
      by replace (length l + 1 + length xs)%nat
        with (length l + S (length xs))%nat by lia.
Qed.

(** C3: values appended by [push_back] to an empty vector are its elements,
    in call order, and [size()] is the number of calls; the calls succeed when
    no failure is planned and the blocks fit the address space. *)
Theorem push_back_sequence (xs : list T) (s : state) :
  self s = empty_vec ->
  (forall s', push_all xs s = Val tt s' ->
     size s' = Val (N.of_nat (length xs)) s' /\
     elements s' = Some xs /\
     forall i x, xs !! i = Some x -> subscript (N.of_nat i) s' = Val x s') /\
  (fault_free (ctor_faults s) -> fault_free (alloc_faults s) ->
   2 * N.of_nat (length xs) * sizeof <= 2 ^ SIZE_WIDTH ->
   exists s', push_all xs s = Val tt s').
Proof.
  intros Hs. pose proof (valid_empty s Hs) as Hv. split.
  - intros s' Hrun. pose proof (push_all_spec xs s [] Hv) as Hsp.
    rewrite Hrun in Hsp. destruct Hsp as [Hv' _]. simpl in Hv'.
    split; [by apply valid_size|]. split; [by apply valid_elements|].
    intros i x Hi. destruct Hv' as (free & Hst & _).
    by eapply stores_subscript.
  - intros Hcf Haf Hfit. by apply (push_all_progress xs s []).
Qed.

(** C4: a successful [push_back] changes the capacity exactly when
    [size == capacity], to [2 * capacity + 1]; pushing [n] values into an
    empty vector leaves the capacity [2^k - 1] with [k] the bit length of
    [n], so the capacities seen are 0, 1, 3, 7, 15, ... *)
Theorem push_back_capacity :
  (forall s (l : list T) x s',
     valid s l -> push_back x s = Val tt s' ->
     (size_ (self s) <> capacity_ (self s) ->
      capacity s' = Val (capacity_ (self s)) s') /\
     (size_ (self s) = capacity_ (self s) ->
      capacity s' = Val (2 * capacity_ (self s) + 1) s' /\
      capacity_ (self s) < capacity_ (self s'))) /\
  (forall (xs : list T) s s',
     self s = empty_vec -> push_all xs s = Val tt s' ->
     capacity s' = Val (2 ^ N.size (N.of_nat (length xs)) - 1) s').
Proof.
  split.
  - intros s l x s' Hv Hrun. pose proof (push_back_spec s l x Hv) as Hpb.
    rewrite Hrun in Hpb. destruct Hpb as (_ & Hcap & _).
    unfold capacity, get_capacity. rewrite Hcap. split.
    + intros Hne. apply N.eqb_neq in Hne. by rewrite Hne.
    + intros Heq. rewrite Heq, N.eqb_refl. split; [f_equal; lia|lia].
  - intros xs s s' Hs Hrun.
    pose proof (push_all_spec xs s [] (valid_empty s Hs)) as Hsp.
    rewrite Hrun in Hsp. destruct Hsp as [Hv' Hg].
    unfold capacity, get_capacity. f_equal.
    destruct Hv' as (free & [Hsz _] & _). simpl in Hsz. rewrite <- Hsz.
    apply grown_capacity_closed, Hg. rewrite Hs. simpl.
    exists 0. simpl. lia.
Qed.

(** ** Relocation: [swap_data(reallocate(n), c)] *)

Lemma relocate_spec s (l : list T) free n c :
  stores s l free ->
  match bind (reallocate n) (fun p => swap_data p c) s with
  | Val _ s' =>
      exists d, heap s !! d = None /\ (length l <= slots n)%nat /\
        self s' = Vec (size_ (self s)) c (Some d) /\
        stores s' l (slots n - length l) /\
        heap s' =
          <[d := (Some <$> l) ++ replicate (slots n - length l) None]>
            (released s) /\
        ctor_faults s' = drop (length l) (ctor_faults s) /\
        alloc_faults s' = tail (alloc_faults s)
  | Exn e s' =>
      self s' = self s /\ heap s' = heap s /\
      alloc_faults s' = tail (alloc_faults s) /\
      match e with
      | bad_alloc =>
          next_fault (alloc_faults s) = true /\
          trace s' = trace s /\ ctor_faults s' = ctor_faults s
      | ctor_failure =>
          exists d j, (j < length l)%nat /\ ctor_faults s !! j = Some true /\
            heap s !! d = None /\
            trace s' = trace s ++ rollback_events d (wrap (n * sizeof)) j /\
            ctor_faults s' = drop (S j) (ctor_faults s)
      end
  | Undef => (slots n < length l)%nat
  end.
Proof.
  intros Hst. pose proof (reallocate_spec s l free n Hst) as Hre.
  unfold bind. destruct (reallocate n s) as [p s1|e s1|]; [|done|done].
  destruct Hre as (d & -> & Hd & Hnd & Hle & ->).
  set (s1 := State _ _ _ _ _).
  assert (Hst1 : stores s1 l free).
  { destruct Hst as [Hsz Hdata]. split; [done|]. unfold s1. cbn [self heap].
    destruct (data_ (self s)) as [a|] eqn:Ha; [|done].
    by rewrite lookup_insert_ne by congruence. }
  rewrite (swap_data_run s1 l free d c Hst1).
  assert (Hheap : released s1 =
            <[d := (Some <$> l) ++ replicate (slots n - length l) None]>
              (released s)).
  { unfold released, s1. cbn [self heap].
    destruct (data_ (self s)) as [a|] eqn:Ha; [|done].
    by rewrite delete_insert_ne by congruence. }
  exists d. split; [done|]. split; [done|]. split; [done|].
  split; [|by split].
  destruct Hst as [Hsz Hdata]. split; [done|].
  cbn [self data_ heap]. by rewrite Hheap, lookup_insert_eq.
Qed.

(** ** [reserve] *)

Lemma reserve_spec s (l : list T) n :
  valid s l ->
  match reserve n s with
  | Val _ s' =>
      if capacity_ (self s) <? n then
        exists d, heap s !! d = None /\ (length l <= slots n)%nat /\
          self s' = Vec (size_ (self s)) n (Some d) /\
          stores s' l (slots n - length l)
      else s' = s
  | Exn e s' =>
      capacity_ (self s) < n /\
      self s' = self s /\ heap s' = heap s /\
      match e with
      | bad_alloc => next_fault (alloc_faults s) = true /\ trace s' = trace s
      | ctor_failure =>
          exists d j, (j < length l)%nat /\ ctor_faults s !! j = Some true /\
            heap s !! d = None /\
            trace s' = trace s ++ rollback_events d (wrap (n * sizeof)) j
      end
  | Undef => capacity_ (self s) < n /\ (slots n < length l)%nat
  end.
Proof.
  intros (free & Hst & Hcap & Hfit). unfold reserve.
  cbv beta iota delta [bind get_capacity].
  destruct (capacity_ (self s) <? n) eqn:Hlt; [|done].
  apply N.ltb_lt in Hlt.
  pose proof (relocate_spec s l free n n Hst) as Hre. unfold bind in Hre.
  destruct (match reallocate n s with
            | Val a s1 => swap_data a n s1
            | Exn e s1 => Exn e s1
            | Undef => Undef
            end) as [[] s'|e s'|]; [| |done].
  - destruct Hre as (d & Hd & Hle & Hself & Hst' & _). by exists d.
  - destruct Hre as (Hself & Hheap & _ & Hre).
    split; [done|]. split; [done|]. split; [done|]. destruct e.
    + by destruct Hre as (? & ? & _).
    + destruct Hre as (d & j & ? & ? & ? & ? & _). by exists d, j.
Qed.

(** C6: a successful [reserve(n)] with [n > capacity] makes the capacity
    exactly [n] and keeps size and elements; with [n <= capacity] it changes
    nothing; either way the capacity is at least [n] afterwards.  The call
    succeeds when nothing is planned to fail and [n] elements fit the address
    space. *)
Theorem reserve_capacity (s : state) (l : list T) (n : N) :
  valid s l ->
  (forall s', reserve n s = Val tt s' ->
     size s' = Val (size_ (self s)) s' /\
     elements s' = Some l /\
     (capacity_ (self s) < n -> capacity s' = Val n s') /\
     (n <= capacity_ (self s) -> s' = s) /\
     n <= capacity_ (self s')) /\
  (n <= capacity_ (self s) -> reserve n s = Val tt s) /\
  (fault_free (ctor_faults s) -> fault_free (alloc_faults s) ->
   n * sizeof < 2 ^ SIZE_WIDTH ->
   exists s', reserve n s = Val tt s').
Proof.
  intros Hv. pose proof (reserve_spec s l n Hv) as Hre.
  split; [|split].
  - intros s' Hrun. rewrite Hrun in Hre.
    destruct (capacity_ (self s) <? n) eqn:Hlt.
    + apply N.ltb_lt in Hlt. destruct Hre as (d & Hd & Hle & Hself & Hst').
      unfold size, capacity, get_size, get_capacity. rewrite Hself. simpl.
      split; [done|]. split; [by eapply stores_elements|].
      split; [done|]. split; [lia|lia].
    + apply N.ltb_ge in Hlt. subst s'.
      split; [done|]. split; [by apply valid_elements|].
      split; [lia|]. split; [done|lia].
  - intros Hle. apply N.ltb_ge in Hle. unfold reserve.
    cbv beta iota delta [bind get_capacity]. by rewrite Hle.
  - intros Hcf Haf Hfit. destruct (reserve n s) as [[] s'|e s'|].
    + by exists s'.
    + destruct Hre as (_ & _ & _ & Hre). destruct e.
      * destruct Hre as [Hre _]. by rewrite fault_free_next in Hre.
      * destruct Hre as (d & j & _ & Hj & _). by apply fault_free_lookup in Hj.
    + destruct Hre as [Hlt Hsl]. rewrite slots_exact in Hsl by done.
      destruct Hv as (free & _ & Hcap & _). lia.
Qed.

(** ** Copy construction *)

(** Copying [other], whose block lives in the heap of [s], into the object
    under construction. *)
Lemma copy_ctor_spec s other (l : list T) :
  valid (with_self other s) l ->
  match copy_ctor other s with
  | Val _ s' =>
      valid s' l /\ valid (with_self other s') l /\
      self s' = Vec (size_ other) (size_ other) (data_ (self s')) /\
      (data_ (self s') = None <-> capacity_ other = 0) /\
      (forall d, data_ (self s') = Some d -> heap s !! d = None) /\
      heap s' = match data_ (self s') with
                | Some d => <[d := Some <$> l]> (heap s)
                | None => heap s
                end /\
      (exists kc, ctor_faults s' = drop kc (ctor_faults s)) /\
      (exists ka, alloc_faults s' = drop ka (alloc_faults s))
  | Exn e s' =>
      heap s' = heap s /\
      match e with
      | bad_alloc => next_fault (alloc_faults s) = true /\ trace s' = trace s
      | ctor_failure =>
          exists d j, (j < length l)%nat /\ ctor_faults s !! j = Some true /\
            heap s !! d = None /\
            trace s' = trace s ++
              rollback_events d (wrap (size_ other * sizeof)) j
      end
  | Undef => False
  end.
Proof.
  intros (free & [Hsz Hdata] & Hcap & Hfit).
  cbn [with_self self heap] in Hsz, Hdata, Hcap, Hfit.
  unfold copy_ctor.
  cbv beta iota delta [bind set_size set_capacity get_size set_data get_data
                       with_self].
  cbn [self size_ capacity_ data_ heap trace ctor_faults alloc_faults].
  destruct (capacity_ other =? 0) eqn:Hc0.
  - (* nothing allocated, nothing to copy *)
    apply N.eqb_eq in Hc0.
    assert (l = []) as -> by (destruct l; [done|simpl in *; lia]).
    unfold ret.
    cbn [self size_ capacity_ data_ heap trace ctor_faults alloc_faults].
    rewrite Hsz. unfold on_exn, uninitialized_copy_n_with_reverse_destroy.
    simpl. unfold ret.
    split; [|split; [|split; [done|split; [done|split; [done|]]]]].
    + exists 0%nat. split; [by split|]. split; [done|].
      cbn [self capacity_]. pose proof sizeof_fits. simpl. lia.
    + exists free. by split.
    + split; [done|]. split; by exists 0%nat.
  - apply N.eqb_neq in Hc0.
    destruct (data_ other) as [a|] eqn:Ha; cycle 1.
    { destruct Hdata as [-> ->]. simpl in Hcap. lia. }
    assert (Hfit' : size_ other * sizeof < 2 ^ SIZE_WIDTH).
    { assert (size_ other * sizeof <= capacity_ other * sizeof)
        by (apply N.mul_le_mono_r; lia). lia. }
    assert (Hslots : slots (size_ other) = length l).
    { rewrite slots_exact by done. lia. }
    unfold operator_new.
    cbn [self size_ capacity_ data_ heap trace ctor_faults alloc_faults].
    destruct (next_fault (alloc_faults s)) eqn:Hf; [done|].
    set (d := fresh (dom (heap s))).
    assert (Hd : heap s !! d = None) by apply operator_new_fresh.
    assert (Hne : a <> d) by congruence.
    cbn [self size_ capacity_ data_ heap trace ctor_faults alloc_faults].
    unfold uninitialized_copy_n_with_reverse_destroy, on_exn.
    rewrite Hsz, Nat2N.id. fold (slots (N.of_nat (length l))).
    rewrite <- Hsz, Hslots.
    set (s1 := State _ _ _ _ _).
    pose proof (copy_loop_spec d a l (replicate free None) (length l) 0
                  (length l) s1) as Hloop.
    destruct (copy_loop (Some d) (Some a) 0 (length l) s1) as [[] s'|e s'|];
      unfold s1 in Hloop; cbn [self heap trace ctor_faults alloc_faults] in Hloop.
    + destruct Hloop as [_ ->];
        [by rewrite lookup_insert_ne|by rewrite lookup_insert_eq|done|done|].
      rewrite insert_insert_eq, Nat.sub_diag. simpl.
      split; [|split; [|split; [done|split; [done|]]]].
      * exists 0%nat. split; [split; [done|]|split].
        -- cbn [self data_ heap]. by rewrite lookup_insert_eq.
        -- cbn [self capacity_]. lia.
        -- done.
      * exists free. split; [split; [done|]|done].
        cbn [with_self self data_ heap]. rewrite Ha.
        by rewrite lookup_insert_ne.
      * split; [by intros ? [= <-]|]. split; [by rewrite app_nil_r|].
        split; [by eexists|]. exists 1%nat. by rewrite <- drop_tail, drop_0.
    + destruct Hloop as [-> (j & Hj & _ & Hfj & ->)];
        [by rewrite lookup_insert_ne|by rewrite lookup_insert_eq|done|done|].
      unfold operator_delete.
      cbn [self size_ capacity_ data_ heap trace ctor_faults alloc_faults].
      rewrite lookup_insert_eq.
      cbn [self size_ capacity_ data_ heap trace ctor_faults alloc_faults].
      rewrite !insert_insert_eq, delete_insert_eq, delete_id by done.
      split; [done|]. exists d, j. split; [done|]. split; [done|].
      split; [done|]. unfold rollback_events. by rewrite <- !app_assoc.
    + assert (length l < length l)%nat; [|lia].
      apply Hloop;
        [by rewrite lookup_insert_ne|by rewrite lookup_insert_eq|done|done].
Qed.

(** C1: when [reserve], a growing [push_back] or the copy constructor lets an
    exception out, the vector (for the copy constructor, the source) and the
    heap are as before the call; after a failed element copy the events of
    the call are: the new block is allocated, [j] elements are constructed in
    it, they are destroyed last to first, and the block is released. *)
Theorem strong_guarantee (s : state) (l : list T) :
  valid s l ->
  (forall n e s', reserve n s = Exn e s' ->
     self s' = self s /\ heap s' = heap s /\ elements s' = Some l /\
     (e = ctor_failure ->
      exists d bytes j, (j <= length l)%nat /\ heap s !! d = None /\
        trace s' = trace s ++ rollback_events d bytes j)) /\
  (forall x e s', push_back x s = Exn e s' ->
     self s' = self s /\ heap s' = heap s /\ elements s' = Some l /\
     (e = ctor_failure -> size_ (self s) = capacity_ (self s) ->
      exists d bytes j, (j <= length l)%nat /\ heap s !! d = None /\
        trace s' = trace s ++ rollback_events d bytes j)) /\
  (forall this e s', copy_ctor (self s) (with_self this s) = Exn e s' ->
     heap s' = heap s /\ elements (with_self (self s) s') = Some l /\
     (e = ctor_failure ->
      exists d bytes j, (j <= length l)%nat /\ heap s !! d = None /\
        trace s' = trace s ++ rollback_events d bytes j)).
Proof.
  intros Hv.
  assert (Hsame : forall s', self s' = self s -> heap s' = heap s ->
                             elements s' = Some l).
  { intros s' Hself Hheap. rewrite <- (valid_elements s l Hv).
    unfold elements. by rewrite Hself, Hheap. }
  split; [|split].
  - intros n e s' Hrun. pose proof (reserve_spec s l n Hv) as Hre.
    rewrite Hrun in Hre. destruct Hre as (_ & Hself & Hheap & Hre).
    split; [done|]. split; [done|]. split; [by apply Hsame|].
    intros ->. destruct Hre as (d & j & Hj & _ & Hd & Htr).
    exists d, (wrap (n * sizeof)), j. split; [lia|done].
  - intros x e s' Hrun. pose proof (push_back_spec s l x Hv) as Hpb.
    rewrite Hrun in Hpb. destruct Hpb as (Hself & Hheap & Hpb).
    split; [done|]. split; [done|]. split; [by apply Hsame|].
    intros -> Hgrow. destruct Hpb as [_ Hpb].
    rewrite Hgrow, N.eqb_refl in Hpb.
    destruct Hpb as (d & j & Hj & Hd & Htr). by eexists d, _, j.
  - intros this e s' Hrun.
    assert (Hv' : valid (with_self (self s) (with_self this s)) l).
    { destruct Hv as (free & [Hsz Hdata] & Hcap & Hfit).
      exists free. by repeat split. }
    pose proof (copy_ctor_spec (with_self this s) (self s) l Hv') as Hcc.
    rewrite Hrun in Hcc. cbn [with_self heap trace] in Hcc.
    destruct Hcc as [Hheap Hcc]. split; [done|]. split.
    { apply Hsame; [done|]. cbn [with_self heap]. done. }
    intros ->. destruct Hcc as (d & j & Hj & _ & Hd & Htr).
    eexists d, _, j. split; [lia|done].
Qed.

(** ** [erase] *)

Lemma insert_swap_middle {X} (A B C : list X) (u v : X) i j :
  i = length A -> j = (length A + S (length B))%nat ->
  <[j := u]> (<[i := v]> (A ++ u :: B ++ v :: C)) = A ++ v :: B ++ u :: C.
Proof.
  intros -> ->.
  rewrite insert_app_r_alt, Nat.sub_diag by lia. simpl.
  rewrite insert_app_r_alt by lia.
  replace (length A + S (length B) - length A)%nat with (S (length B)) by lia.
  simpl. rewrite insert_app_r_alt, Nat.sub_diag by lia. reflexivity.
Qed.

Lemma lookup_block (pre mid : list T) x rest :
  ((Some <$> (pre ++ x :: mid)) ++ rest) !! length pre = Some (Some x).
Proof.
  rewrite fmap_app, <- app_assoc.
  rewrite lookup_app_r by (rewrite length_fmap; lia).
  by rewrite length_fmap, Nat.sub_diag.
Qed.

(** The loop of [erase] over a block [pre ++ G ++ tl]: the tail [tl] moves up
    to follow [pre], and the erased values [G] end up behind it in some
    order. *)
Lemma erase_loop_run a : forall (tl pre G : list T) rest s,
  heap s !! a = Some ((Some <$> (pre ++ G ++ tl)) ++ rest) ->
  exists G', length G' = length G /\ (G = [] -> G' = []) /\
    erase_loop (Some a) (length pre) (length pre + length G) (length tl) s =
      Val ((length pre + length tl)%nat,
           (length pre + length G + length tl)%nat)
        (State (self s)
           (<[a := (Some <$> (pre ++ tl ++ G')) ++ rest]> (heap s))
           (trace s) (ctor_faults s) (alloc_faults s)).
Proof.
  induction tl as [|y tl IH]; intros pre G rest s Ha.
  - exists G. split; [done|]. split; [done|]. simpl. unfold ret.
    rewrite !Nat.add_0_r. rewrite app_nil_r in Ha.
    by rewrite insert_id, state_eta.
  - cbn [erase_loop length].
    assert (Hy : ((Some <$> (pre ++ G ++ y :: tl)) ++ rest)
                   !! (length pre + length G)%nat = Some (Some y)).
    { rewrite (app_assoc pre G), <- length_app. apply lookup_block. }
    destruct G as [|g G].
    + (* nothing erased: every element is swapped with itself *)
      simpl in Ha, Hy. rewrite Nat.add_0_r in Hy.
      destruct (IH (pre ++ [y]) [] rest
                  (State (self s)
                     (<[a := (Some <$> (pre ++ y :: tl)) ++ rest]> (heap s))
                     (trace s) (ctor_faults s) (alloc_faults s)))
        as (G' & HG' & Hnil & Hrun).
      { cbn [heap]. rewrite lookup_insert_eq. simpl.
        by rewrite <- app_assoc. }
      rewrite (Hnil eq_refl) in Hrun. exists []. split; [done|].
      split; [done|].
      erewrite bind_Val; cycle 1.
      { unfold swap_slots. simpl. rewrite Nat.add_0_r, Ha, Hy.
        rewrite !(list_insert_id _ _ _ Hy). reflexivity. }
      rewrite length_app in Hrun. simpl in Hrun.
      rewrite !Nat.add_0_r, !Nat.add_1_r in Hrun. simpl.
      rewrite Nat.add_0_r, Hrun. cbn [self heap trace ctor_faults alloc_faults].
      rewrite insert_insert_eq, <- !app_assoc. simpl.
      by rewrite !Nat.add_succ_r.
    + destruct (IH (pre ++ [y]) (G ++ [g]) rest
                  (State (self s)
                     (<[a := (Some <$> ((pre ++ [y]) ++ (G ++ [g]) ++ tl))
                             ++ rest]> (heap s))
                     (trace s) (ctor_faults s) (alloc_faults s)))
        as (G' & HG' & _ & Hrun).
      { cbn [heap]. by rewrite lookup_insert_eq. }
      exists G'. split; [by rewrite HG', length_app, Nat.add_comm|].
      split; [done|].
      erewrite bind_Val; cycle 1.
      { unfold swap_slots. rewrite Ha, Hy.
        change (pre ++ (g :: G) ++ y :: tl) with (pre ++ g :: G ++ y :: tl).
        rewrite lookup_block. cbn [length].
        rewrite !fmap_app, !fmap_cons, !fmap_app, !fmap_cons, <- !app_assoc.
        simpl. rewrite <- ?app_assoc. simpl.
        rewrite (insert_swap_middle (Some <$> pre) (Some <$> G)
                   ((Some <$> tl) ++ rest) (Some g) (Some y))
          by (rewrite !length_fmap; lia).
        reflexivity. }
      rewrite !length_app in Hrun. simpl in Hrun. cbn [length].
      replace (S (length pre)) with (length pre + 1)%nat by lia.
      replace (S (length pre + S (length G)))
        with (length pre + 1 + (length G + 1))%nat by lia.
      repeat (rewrite ?fmap_app, ?fmap_cons, <- ?app_assoc in Hrun;
              simpl in Hrun).
      rewrite Hrun, insert_insert_eq.
      repeat (rewrite ?fmap_app, ?fmap_cons, <- ?app_assoc; simpl).
      f_equal. f_equal; lia.
Qed.

Lemma destroy_range_run a : forall (G : list T) (A rest : list (option T)) s,
  heap s !! a = Some (A ++ (Some <$> G) ++ rest) ->
  destroy_range (Some a) (length A) (length G) s =
    Val tt (State (self s)
              (<[a := A ++ replicate (length G) None ++ rest]> (heap s))
              (trace s ++ (EvDestroy a <$> seq (length A) (length G)))
              (ctor_faults s) (alloc_faults s)).
Proof.
  induction G as [|g G IH]; intros A rest s Ha.
  - simpl. unfold ret. simpl in Ha.
    by rewrite insert_id, app_nil_r, state_eta.
  - cbn [destroy_range length].
    erewrite bind_Val; cycle 1.
    { unfold destroy_at. rewrite Ha.
      rewrite lookup_app_r, Nat.sub_diag by lia. simpl.
      rewrite insert_app_r_alt, Nat.sub_diag by lia. reflexivity. }
    specialize (IH (A ++ [None]) rest).
    rewrite length_app, Nat.add_1_r in IH. rewrite IH; cycle 1.
    { cbn [heap]. rewrite lookup_insert_eq. by rewrite <- app_assoc. }
    cbn [self heap trace ctor_faults alloc_faults].
    by rewrite insert_insert_eq, <- !app_assoc.
Qed.

Lemma erase_range_run s (pre G tl : list T) free :
  stores s (pre ++ G ++ tl) free ->
  exists s',
    erase_range (N.of_nat (length pre)) (N.of_nat (length pre + length G)) s
      = Val (N.of_nat (length pre)) s' /\
    stores s' (pre ++ tl) (length G + free) /\
    capacity_ (self s') = capacity_ (self s) /\
    data_ (self s') = data_ (self s) /\
    (G = [] -> s' = s).
Proof.
  intros [Hsz Hdata]. unfold erase_range.
  cbv beta iota delta [bind get_data get_size].
  rewrite !length_app in Hsz.
  assert (Hlast : (size_ (self s) <? N.of_nat (length pre + length G)) = false)
    by (apply N.ltb_ge; lia).
  rewrite Hlast.
  replace (N.to_nat (size_ (self s) - N.of_nat (length pre + length G)))
    with (length tl) by lia.
  rewrite !Nat2N.id.
  destruct (data_ (self s)) as [a|] eqn:Ha.
  - destruct (erase_loop_run a tl pre G (replicate free None) s Hdata)
      as (G' & HG' & Hnil & ->).
    cbn [fst snd].
    replace (length pre + length G + length tl - (length pre + length tl))%nat
      with (length G') by lia.
    rewrite <- (length_app pre tl), <- (length_fmap Some (pre ++ tl)).
    rewrite (destroy_range_run a G' (Some <$> (pre ++ tl))
               (replicate free None)); cycle 1.
    { cbn [heap]. rewrite lookup_insert_eq. f_equal.
      by rewrite app_assoc, fmap_app, <- !app_assoc. }
    cbv beta iota delta [set_size with_self ret].
    cbn [self heap trace ctor_faults alloc_faults size_ capacity_ data_].
    eexists. split; [reflexivity|].
    cbn [self heap trace ctor_faults alloc_faults size_ capacity_ data_].
    rewrite insert_insert_eq, length_fmap, HG', <- replicate_add.
    split; [split; [done|]|].
    { cbn [self data_ heap]. by rewrite Ha, lookup_insert_eq. }
    split; [done|]. split; [done|].
    intros ->. simpl in *.
    rewrite app_nil_r, insert_id, length_app by done.
    destruct s as [[sz c d] h t cf af]. simpl in *. by subst.
  - destruct Hdata as [Hnil ->].
    apply app_eq_nil in Hnil as [-> Hnil].
    apply app_eq_nil in Hnil as [-> ->]. simpl. unfold ret.
    cbv beta iota delta [set_size with_self ret].
    cbn [self heap trace ctor_faults alloc_faults size_ capacity_ data_].
    eexists. split; [reflexivity|].
    split; [split; [done|]|].
    { cbn [self data_]. by rewrite Ha. }
    split; [done|]. split; [done|].
    intros _. simpl in Hsz.
    destruct s as [[sz c d] h t cf af]. simpl in *. by subst.
Qed.

(** C7: [erase(first, last)] on a valid range (offsets from [begin()] with
    [first <= last <= size]) keeps the elements before [first], moves those
    from [last] on up to [first] in order, takes [last - first] off the size,
    and returns [first], the place where the first element after the range
    now is (the new end when there is none); for [first == last] nothing
    changes. *)
Theorem erase_range_shifts (s : state) (l : list T) (first last : N) :
  valid s l ->
  first <= last -> last <= size_ (self s) ->
  exists s',
    erase_range first last s = Val first s' /\
    elements s' = Some (take (N.to_nat first) l ++ drop (N.to_nat last) l) /\
    size s' = Val (size_ (self s) - (last - first)) s' /\
    capacity s' = Val (capacity_ (self s)) s' /\
    (take (N.to_nat first) l ++ drop (N.to_nat last) l) !! N.to_nat first
      = l !! N.to_nat last /\
    (first = last -> s' = s).
Proof.
  intros (free & Hst & Hcap & Hfit) Hfl Hls.
  assert (Hsz : size_ (self s) = N.of_nat (length l)) by apply Hst.
  set (f := N.to_nat first). set (t := N.to_nat last).
  assert (Hf : (f <= t)%nat) by lia. assert (Ht : (t <= length l)%nat) by lia.
  set (pre := take f l). set (G := take (t - f) (drop f l)).
  set (tl := drop t l).
  assert (Hl : l = pre ++ G ++ tl).
  { unfold pre, G, tl. rewrite <- (take_drop f l) at 1. f_equal.
    rewrite <- (take_drop (t - f) (drop f l)) at 1. f_equal.
    rewrite drop_drop. f_equal. lia. }
  assert (Hpre : length pre = f) by (unfold pre; rewrite length_take; lia).
  assert (HG : length G = (t - f)%nat).
  { unfold G. rewrite length_take, length_drop. lia. }
  rewrite Hl in Hst.
  destruct (erase_range_run s pre G tl free Hst)
    as (s' & Hrun & Hst' & Hcap' & _ & Hnop).
  rewrite Hpre, HG in Hrun.
  replace (N.of_nat f) with first in Hrun by lia.
  replace (N.of_nat (f + (t - f))) with last in Hrun by lia.
  exists s'. split; [done|].
  split; [by eapply stores_elements|].
  split.
  { unfold size, get_size. f_equal. destruct Hst' as [-> _].
    rewrite length_app, Hpre. unfold tl. rewrite length_drop. lia. }
  split; [unfold capacity, get_capacity; by rewrite Hcap'|].
  split.
  { fold pre tl. rewrite lookup_app_r, Hpre, Nat.sub_diag by lia.
    unfold tl. by rewrite lookup_drop, Nat.add_0_r. }
  intros Heq. apply Hnop. apply length_zero_iff_nil. lia.
Qed.

(** ** [insert] *)

Lemma insert_loop_eq d ret_it last :
  insert_loop d ret_it last =
    if Nat.eqb last ret_it then ret tt
    else match last with
         | O => undef
         | S last' => bind (swap_slots d last last')
                        (fun _ => insert_loop d ret_it last')
         end.
Proof. by destruct last. Qed.

Lemma insert_swap_adjacent {X} (A C : list X) (u v : X) k :
  k = length A ->
  <[k := v]> (<[S k := u]> (A ++ u :: v :: C)) = A ++ v :: u :: C.
Proof.
  intros ->.
  rewrite insert_app_r_alt by lia.
  replace (S (length A) - length A)%nat with 1%nat by lia. simpl.
  rewrite insert_app_r_alt, Nat.sub_diag by lia. reflexivity.
Qed.

(** The loop of [insert] over a block [pre ++ mid ++ x :: post]: the appended
    [x] moves down in front of [mid]. *)
Lemma insert_loop_run a x : forall (mid pre post : list T) rest s,
  heap s !! a = Some ((Some <$> (pre ++ mid ++ x :: post)) ++ rest) ->
  insert_loop (Some a) (length pre) (length pre + length mid) s =
    Val tt (State (self s)
              (<[a := (Some <$> (pre ++ x :: mid ++ post)) ++ rest]> (heap s))
              (trace s) (ctor_faults s) (alloc_faults s)).
Proof.
  induction mid as [|y mid IH] using rev_ind; intros pre post rest s Ha.
  - rewrite insert_loop_eq. simpl. rewrite Nat.add_0_r, Nat.eqb_refl.
    unfold ret. simpl in Ha. by rewrite insert_id, state_eta.
  - rewrite insert_loop_eq, length_app. simpl.
    replace (length pre + (length mid + 1))%nat
      with (S (length pre + length mid)) by lia.
    rewrite (proj2 (Nat.eqb_neq _ _)) by lia.
    assert (Hblock : (Some <$> (pre ++ (mid ++ [y]) ++ x :: post)) ++ rest
                     = (Some <$> (pre ++ mid)) ++ Some y :: Some x
                         :: ((Some <$> post) ++ rest)).
    { by norm_block. }
    erewrite bind_Val; cycle 1.
    { unfold swap_slots. rewrite Ha, Hblock.
      rewrite lookup_app_r by (rewrite length_fmap, length_app; lia).
      rewrite length_fmap, length_app.
      replace (S (length pre + length mid) - (length pre + length mid))%nat
        with 1%nat by lia.
      rewrite lookup_app_r by (rewrite length_fmap, length_app; lia).
      rewrite length_fmap, length_app, Nat.sub_diag. simpl.
      rewrite insert_swap_adjacent by (by rewrite length_fmap, length_app).
      reflexivity. }
    rewrite (IH pre (y :: post) rest); cycle 1.
    { cbn [heap]. rewrite lookup_insert_eq. f_equal. by norm_block. }
    cbn [self heap trace ctor_faults alloc_faults].
    rewrite insert_insert_eq. do 3 f_equal. by norm_block.
Qed.

Lemma insert_spec_capacity s (l : list T) (i : nat) x :
  valid s l -> (i <= length l)%nat ->
  match insert (N.of_nat i) x s with
  | Val r s' =>
      r = N.of_nat i /\ valid s' (take i l ++ x :: drop i l) /\
      capacity_ (self s') =
        (if size_ (self s) =? capacity_ (self s)
         then capacity_ (self s) * 2 + 1 else capacity_ (self s))
  | Exn e s' => push_back x s = Exn e s'
  | Undef =>
      size_ (self s) = capacity_ (self s) /\
      2 ^ SIZE_WIDTH <= (capacity_ (self s) * 2 + 1) * sizeof
  end.
Proof.
  intros Hv Hi. unfold insert. unfold bind at 1.
  pose proof (push_back_spec s l x Hv) as Hpb.
  destruct (push_back x s) as [[] s1|e s1|]; [|done|done].
  - destruct Hpb as ((free & [Hsz Hdata] & Hcap & Hfit) & Hgrown & _).
    cbv beta iota delta [bind get_data get_size].
    rewrite length_app in Hsz, Hcap. simpl in Hsz, Hcap.
    rewrite (proj2 (N.eqb_neq _ _)) by lia.
    destruct (data_ (self s1)) as [a|] eqn:Ha; cycle 1.
    { destruct Hdata as [Hnil _]. by destruct l. }
    rewrite Nat2N.id.
    replace (N.to_nat (size_ (self s1) - 1)) with (length l) by lia.
    assert (Hl : l ++ [x] = take i l ++ drop i l ++ x :: []).
    { by rewrite app_assoc, take_drop. }
    rewrite Hl in Hdata.
    pose proof (insert_loop_run a x (drop i l) (take i l) [] _ s1 Hdata)
      as Hloop.
    rewrite length_take, length_drop in Hloop.
    replace (i `min` length l)%nat with i in Hloop by lia.
    replace (i + (length l - i))%nat with (length l) in Hloop by lia.
    rewrite Hloop. unfold ret. split; [done|]. rewrite app_nil_r.
    split; [|done].
    exists free.
    assert (Hlen : length (take i l ++ x :: drop i l) = (length l + 1)%nat).
    { rewrite length_app, length_take. simpl. rewrite length_drop. lia. }
    split; [split|].
    + cbn [self]. by rewrite Hlen.
    + cbn [self heap]. by rewrite Ha, lookup_insert_eq.
    + cbn [self]. by rewrite Hlen.
Qed.

Lemma insert_spec s (l : list T) (i : nat) x :
  valid s l -> (i <= length l)%nat ->
  match insert (N.of_nat i) x s with
  | Val r s' => r = N.of_nat i /\ valid s' (take i l ++ x :: drop i l)
  | Exn e s' => push_back x s = Exn e s'
  | Undef =>
      size_ (self s) = capacity_ (self s) /\
      2 ^ SIZE_WIDTH <= (capacity_ (self s) * 2 + 1) * sizeof
  end.
Proof.
  intros Hv Hi. pose proof (insert_spec_capacity s l i x Hv Hi) as Hins.
  destruct (insert (N.of_nat i) x s); [|done|done].
  by destruct Hins as (? & ? & _).
Qed.

(** C8: after a successful [insert(pos, v)] at a position [pos] of
    [[begin, end]], given by its offset from [begin()], [erase(pos)] at that
    position succeeds and the vector has its prior elements and size again;
    the [insert] succeeds when nothing is planned to fail and a grown block
    fits the address space. *)
Theorem insert_then_erase (s : state) (l : list T) (pos : N) (v : T) :
  valid s l ->
  pos <= size_ (self s) ->
  (forall r s1, insert pos v s = Val r s1 ->
     r = pos /\
     elements s1 = Some (take (N.to_nat pos) l ++ v :: drop (N.to_nat pos) l) /\
     exists s2, erase pos s1 = Val pos s2 /\
       elements s2 = Some l /\
       size s2 = Val (size_ (self s)) s2) /\
  (fault_free (ctor_faults s) -> fault_free (alloc_faults s) ->
   (capacity_ (self s) * 2 + 1) * sizeof < 2 ^ SIZE_WIDTH ->
   exists r s1, insert pos v s = Val r s1).
Proof.
  intros Hv Hpos.
  assert (Hsz : size_ (self s) = N.of_nat (length l))
    by (destruct Hv as (? & [? _] & _); done).
  set (i := N.to_nat pos). assert (Hi : (i <= length l)%nat) by lia.
  pose proof (insert_spec s l i v Hv Hi) as Hins.
  replace (N.of_nat i) with pos in Hins by lia.
  split.
  - intros r s1 Hrun. rewrite Hrun in Hins. destruct Hins as [-> Hv1].
    split; [done|]. split; [by apply valid_elements|].
    destruct Hv1 as (free & Hst1 & _).
    change (take i l ++ v :: drop i l)
      with (take i l ++ [v] ++ drop i l) in Hst1.
    destruct (erase_range_run s1 (take i l) [v] (drop i l) free Hst1)
      as (s2 & Herase & Hst2 & _).
    rewrite length_take in Herase. simpl in Herase.
    replace (i `min` length l)%nat with i in Herase by lia.
    exists s2. unfold erase.
    replace (N.of_nat i) with pos in Herase by lia.
    replace (N.of_nat (i + 1)) with (pos + 1) in Herase by lia.
    split; [done|]. rewrite take_drop in Hst2.
    split; [by eapply stores_elements|].
    unfold size, get_size. destruct Hst2 as [-> _]. by rewrite Hsz.
  - intros Hcf Haf Hfit. destruct (insert pos v s) as [r s1|e s1|] eqn:Hrun.
    + by exists r, s1.
    + destruct (push_back_progress s l v Hv Hcf Haf (fun _ => Hfit))
        as [s1' Hpb].
      by rewrite Hpb in Hins.
    + destruct Hins as [_ Hins]. lia.
Qed.

(** ** [shrink_to_fit] *)

(** On an empty vector the members are reset and nothing else happens: the
    heap, with the vector's block if it had one, and the trace stay as they
    were. *)
Lemma shrink_to_fit_empty s :
  valid s [] ->
  shrink_to_fit s = Val tt (with_self (Vec (size_ (self s)) 0 None) s).
Proof.
  intros (free & [Hsz _] & _).
  destruct s as [[sz c d] h t cf af]. simpl in Hsz. by subst sz.
Qed.

(** On a vector with elements and spare capacity the block is replaced by
    one of exactly [size] slots. *)
Lemma shrink_to_fit_nonempty s (l : list T) s' :
  valid s l -> l <> [] ->
  shrink_to_fit s = Val tt s' ->
  capacity s' = Val (size_ (self s)) s' /\
  size s' = Val (size_ (self s)) s' /\
  elements s' = Some l.
Proof.
  intros Hv Hl. pose proof Hv as (free & Hst & Hcap & Hfit).
  assert (Hsz : size_ (self s) = N.of_nat (length l)) by apply Hst.
  assert (Hne : (size_ (self s) =? 0) = false).
  { apply N.eqb_neq. destruct l; [done|simpl in *; lia]. }
  unfold shrink_to_fit, empty, size.
  cbv beta iota delta [bind get_size get_capacity ret]. rewrite Hne.
  destruct (size_ (self s) =? capacity_ (self s)) eqn:Heq; simpl.
  - intros [= <-]. apply N.eqb_eq in Heq.
    unfold capacity, get_capacity, get_size. rewrite Heq.
    split; [done|]. split; [done|by apply valid_elements].
  - pose proof (relocate_spec s l free (size_ (self s)) (size_ (self s)) Hst)
      as Hre. unfold bind in Hre. intros Hrun. rewrite Hrun in Hre.
    destruct Hre as (d & _ & _ & Hself & Hst' & _).
    unfold capacity, get_capacity, get_size. rewrite Hself. simpl.
    split; [done|]. split; [done|by eapply stores_elements].
Qed.

(** ** [pop_back], [clear] and the destructor *)

Lemma wrap_pred_succ n : n + 1 < 2 ^ SIZE_WIDTH -> wrap_pred (n + 1) = n.
Proof.
  intros Hn. unfold wrap_pred, wrap.
  replace (n + 1 + (2 ^ SIZE_WIDTH - 1)) with (n + 1 * 2 ^ SIZE_WIDTH) by lia.
  rewrite N.Div0.mod_add. apply N.mod_small. lia.
Qed.

Lemma pop_back_run s (l : list T) x :
  valid s (l ++ [x]) ->
  exists s',
    pop_back s = Val tt s' /\ valid s' l /\
    capacity_ (self s') = capacity_ (self s).
Proof.
  intros (free & [Hsz Hdata] & Hcap & Hfit).
  pose proof (fits_size_t _ Hfit) as Hc.
  rewrite length_app in Hsz, Hcap. simpl in Hsz, Hcap.
  unfold pop_back.
  cbv beta iota delta [bind get_size set_size get_data with_self].
  cbn [self size_ capacity_ data_ heap trace ctor_faults alloc_faults].
  replace (size_ (self s)) with (N.of_nat (length l) + 1) by lia.
  rewrite wrap_pred_succ, Nat2N.id by lia.
  destruct (data_ (self s)) as [a|] eqn:Ha; cycle 1.
  { destruct Hdata as [Hnil _]. by destruct l. }
  unfold destroy_at.
  cbn [self size_ capacity_ data_ heap trace ctor_faults alloc_faults].
  rewrite Hdata, lookup_block.
  eexists. split; [reflexivity|].
  cbn [self size_ capacity_ data_ heap trace ctor_faults alloc_faults].
  split; [|done]. exists (S free). split; [split; [done|]|split].
  - cbn [self data_ heap]. rewrite lookup_insert_eq. f_equal.
    rewrite fmap_app, <- app_assoc.
    rewrite insert_app_r_alt by (rewrite length_fmap; lia).
    by rewrite length_fmap, Nat.sub_diag.
  - cbn [self capacity_]. lia.
  - done.
Qed.

Lemma clear_run s (l : list T) :
  valid s l ->
  exists s',
    clear s = Val tt s' /\ valid s' [] /\
    capacity_ (self s') = capacity_ (self s).
Proof.
  intros (free & [Hsz Hdata] & Hcap & Hfit). unfold clear.
  cbv beta iota delta [bind get_size set_size get_data with_self].
  destruct (data_ (self s)) as [a|] eqn:Ha.
  - rewrite Hsz.
    rewrite (reverse_destroy_n_run a l (replicate free None) s (length l))
      by done.
    cbn [self size_ capacity_ data_ heap trace ctor_faults alloc_faults].
    eexists. split; [reflexivity|].
    cbn [self size_ capacity_ data_ heap trace ctor_faults alloc_faults].
    split; [|done]. exists (length l + free)%nat.
    split; [split; [done|]|split; [done|done]].
    cbn [self data_ heap]. rewrite Ha, lookup_insert_eq.
    by rewrite replicate_add.
  - destruct Hdata as [-> ->]. rewrite Hsz. simpl. unfold ret.
    eexists. split; [reflexivity|].
    cbn [self size_ capacity_ data_ heap trace ctor_faults alloc_faults].
    split; [|done]. exists 0%nat.
    split; [split; [done|]|split; [done|done]].
    cbn [self data_]. by rewrite Ha.
Qed.

(** The destructor destroys the elements last to first and releases the
    block. *)
Lemma destructor_run s (l : list T) :
  valid s l ->
  exists s',
    destructor s = Val tt s' /\
    heap s' = released s /\
    trace s' = trace s ++ release_events s (length l).
Proof.
  intros (free & [Hsz Hdata] & _). unfold destructor, released, release_events.
  cbv beta iota delta [bind get_size get_data].
  destruct (data_ (self s)) as [a|] eqn:Ha.
  - rewrite Hsz.
    rewrite (reverse_destroy_n_run a l (replicate free None) s (length l))
      by done.
    unfold operator_delete.
    cbn [self size_ capacity_ data_ heap trace ctor_faults alloc_faults].
    rewrite lookup_insert_eq. eexists. split; [reflexivity|].
    cbn [heap trace]. by rewrite delete_insert_eq, <- app_assoc.
  - destruct Hdata as [-> ->]. rewrite Hsz. simpl. unfold ret.
    eexists. split; [reflexivity|]. by rewrite app_nil_r.
Qed.

(** A valid vector satisfies the invariants of the data model, but for the
    case of a zero-slot block, where the pointer is not null at capacity 0. *)
Lemma valid_invariant s (l : list T) :
  valid s l ->
  (capacity_ (self s) = 0 -> data_ (self s) = None) ->
  invariant s.
Proof.
  intros (free & [Hsz Hdata] & Hcap & _) Hnull. split; [lia|]. split.
  - split; [|done]. intros Hd. rewrite Hd in Hdata.
    destruct Hdata as [-> ->]. by rewrite Hcap.
  - intros a Ha. rewrite Ha in Hdata. eexists. split; [done|].
    rewrite length_app, length_fmap, length_replicate. lia.
Qed.

(** ** [swap] and move construction *)

(** C10: [a.swap(b)] always returns; afterwards [a] has the members of [b]
    and [b] those of [a] over the same heap, so each shows the other's prior
    size, capacity and elements; swapping again restores both. *)
Theorem swap_exchanges (s : state) (other : vec) :
  exists other' s',
    swap other s = Val other' s' /\
    self s' = other /\ other' = self s /\
    heap s' = heap s /\ trace s' = trace s /\
    size s' = Val (size_ other) s' /\
    capacity s' = Val (capacity_ other) s' /\
    elements s' = elements (with_self other s) /\
    elements (with_self other' s') = elements s /\
    swap other' s' = Val other s.
Proof.
  exists (self s), (with_self other s).
  destruct s as [[sz c d] h t cf af], other as [sz' c' d']. by repeat split.
Qed.

Lemma move_ctor_run (s : state) (other : vec) :
  move_ctor other s = Val (Vec 0 (capacity_ other) None) (with_self other s).
Proof. by destruct other. Qed.

(** * Further properties of the members *)

(** ** Element access: [operator[]], [front], [back] *)

Lemma block_lookup (l : list T) free i :
  ((Some <$> l) ++ replicate free (@None T)) !! i =
    match l !! i with
    | Some x => Some (Some x)
    | None => if decide (i < length l + free)%nat then Some None else None
    end.
Proof.
  destruct (l !! i) as [x|] eqn:Hi.
  - rewrite lookup_app_l
      by (rewrite length_fmap; by eapply lookup_lt_Some).
    by rewrite list_lookup_fmap, Hi.
  - apply lookup_ge_None in Hi.
    rewrite lookup_app_r by (rewrite length_fmap; lia).
    rewrite length_fmap. case_decide.
    + apply lookup_replicate_2. lia.
    + apply lookup_ge_None. rewrite length_replicate. lia.
Qed.

Lemma valid_subscript s (l : list T) index :
  valid s l ->
  subscript index s =
    match l !! N.to_nat index with
    | Some x => Val x s
    | None => Undef
    end.
Proof.
  intros (free & [Hsz Hdata] & _). unfold subscript, bind, get_data, deref.
  destruct (data_ (self s)) as [a|].
  - rewrite Hdata, block_lookup.
    destruct (l !! N.to_nat index); [done|]. by case_decide.
  - destruct Hdata as [-> _]. by rewrite lookup_nil.
Qed.

(** X1: on a valid vector [operator[]] returns the element at [index] and
    changes nothing when [index < size]; for any other index the access is
    undefined, there is no bounds check. *)
Theorem subscript_in_bounds (s : state) (l : list T) (index : N) :
  valid s l ->
  (forall x, l !! N.to_nat index = Some x -> subscript index s = Val x s) /\
  (size_ (self s) <= index -> subscript index s = Undef).
Proof.
  intros Hv. pose proof (valid_subscript s l index Hv) as Hsub.
  destruct Hv as (free & [Hsz _] & _). split.
  - intros x Hx. by rewrite Hsub, Hx.
  - intros Hge. rewrite Hsub, lookup_ge_None_2; [done|lia].
Qed.

(** X2: on a valid vector [front()] is the first element and [back()] the
    last one; on an empty vector both are undefined ([back] reads at index
    [size_ - 1], which wraps). *)
Theorem front_back_read (s : state) (l : list T) :
  valid s l ->
  front s = match head l with Some x => Val x s | None => Undef end /\
  back s = match last l with Some x => Val x s | None => Undef end.
Proof.
  intros Hv. split.
  - change (front s) with (subscript 0 s).
    rewrite (valid_subscript s l 0 Hv). simpl. by rewrite head_lookup.
  - destruct Hv as (free & [Hsz Hdata] & Hcap & Hfit).
    pose proof (fits_size_t _ Hfit) as Hc.
    unfold back, bind, get_data, get_size, deref.
    rewrite last_lookup.
    destruct l as [|y l] using rev_ind.
    + simpl in *. destruct (data_ (self s)) as [a|]; [|done].
      rewrite Hdata, Hsz. simpl.
      rewrite lookup_ge_None_2; [done|].
      rewrite length_replicate. unfold wrap_pred, wrap. simpl.
      rewrite N.mod_small by lia. lia.
    + clear IHl. rewrite length_app in *. simpl in *.
      replace (size_ (self s)) with (N.of_nat (length l) + 1) by lia.
      rewrite wrap_pred_succ, Nat2N.id by lia.
      replace (Init.Nat.pred (length l + 1)) with (length l) by lia.
      destruct (data_ (self s)) as [a|].
      * rewrite Hdata, block_lookup.
        by rewrite lookup_app_r, Nat.sub_diag by lia.
      * destruct Hdata as [Hnil _]. by destruct l.
Qed.

(** ** [pop_back], [clear], the destructor *)

Lemma pop_back_state s (l : list T) x free a :
  stores s (l ++ [x]) free ->
  data_ (self s) = Some a ->
  size_ (self s) < 2 ^ SIZE_WIDTH ->
  pop_back s =
    Val tt (State (Vec (N.of_nat (length l)) (capacity_ (self s)) (Some a))
              (<[a := (Some <$> l) ++ replicate (S free) None]> (heap s))
              (trace s ++ [EvDestroy a (length l)])
              (ctor_faults s) (alloc_faults s)).
Proof.
  intros [Hsz Hdata] Ha Hfit. rewrite Ha in Hdata.
  rewrite length_app in Hsz. simpl in Hsz.
  unfold pop_back.
  cbv beta iota delta [bind get_size set_size get_data with_self].
  cbn [self size_ capacity_ data_ heap trace ctor_faults alloc_faults].
  replace (size_ (self s)) with (N.of_nat (length l) + 1) in * by lia.
  rewrite wrap_pred_succ, Nat2N.id, Ha by lia.
  unfold destroy_at.
  cbn [self size_ capacity_ data_ heap trace ctor_faults alloc_faults].
  rewrite Hdata, lookup_block. do 3 f_equal.
  rewrite fmap_app, <- app_assoc.
  rewrite insert_app_r_alt by (rewrite length_fmap; lia).
  by rewrite length_fmap, Nat.sub_diag.
Qed.

Lemma valid_size_fits s (l : list T) :
  valid s l -> size_ (self s) < 2 ^ SIZE_WIDTH.
Proof.
  intros (free & [Hsz _] & Hcap & Hfit).
  pose proof (fits_size_t _ Hfit). lia.
Qed.

Lemma valid_nonempty_data s (l : list T) :
  valid s l -> l <> [] -> exists a, data_ (self s) = Some a.
Proof.
  intros (free & [_ Hdata] & _) Hl.
  destruct (data_ (self s)) as [a|]; [by exists a|]. by destruct Hdata.
Qed.

Lemma pop_back_runs s (l : list T) x :
  valid s (l ++ [x]) ->
  exists s' a,
    pop_back s = Val tt s' /\
    valid s' l /\
    data_ (self s) = Some a /\ data_ (self s') = Some a /\
    capacity_ (self s') = capacity_ (self s) /\
    released s' = released s /\
    trace s' = trace s ++ [EvDestroy a (length l)].
Proof.
  intros Hv.
  destruct (valid_nonempty_data _ _ Hv) as [a Ha]; [by destruct l|].
  pose proof (valid_size_fits _ _ Hv) as Hfit.
  destruct Hv as (free & Hst & Hcap & Hbound).
  eexists _, a. split; [by eapply pop_back_state|].
  rewrite length_app in Hcap. simpl in Hcap.
  split; [|split; [done|split; [done|split; [done|split; [|done]]]]].
  - exists (S free). split; [split; [done|]|split; [|done]].
    + cbn [self data_ heap]. by rewrite lookup_insert_eq.
    + cbn [self capacity_]. lia.
  - unfold released. cbn [self data_ heap]. rewrite Ha.
    by rewrite delete_insert_eq.
Qed.

Lemma pop_back_removes_empty s : valid s [] -> pop_back s = Undef.
Proof.
  intros (free & [Hsz Hdata] & Hcap & Hfit).
  pose proof (fits_size_t _ Hfit) as Hc. simpl in *.
  unfold pop_back.
  cbv beta iota delta [bind get_size set_size get_data with_self destroy_at].
  cbn [self size_ capacity_ data_ heap trace ctor_faults alloc_faults].
  destruct (data_ (self s)) as [a|]; [|done].
  rewrite Hdata, Hsz. simpl.
  rewrite lookup_ge_None_2; [done|].
  rewrite length_replicate. unfold wrap_pred, wrap. simpl.
  rewrite N.mod_small by lia. lia.
Qed.

(** X3: [pop_back()] on a valid non-empty vector destroys exactly the last
    element and takes one off the size; capacity, block and every other slot
    stay as they are.  On an empty vector it is undefined: [--size_] wraps
    and the destructor call is out of bounds. *)
Theorem pop_back_removes_last (s : state) (l : list T) :
  valid s l ->
  (forall l' x, l = l' ++ [x] ->
     exists s' a,
       pop_back s = Val tt s' /\
       valid s' l' /\
       data_ (self s) = Some a /\ data_ (self s') = Some a /\
       capacity_ (self s') = capacity_ (self s) /\
       released s' = released s /\
       trace s' = trace s ++ [EvDestroy a (length l')]) /\
  (l = [] -> pop_back s = Undef).
Proof.
  intros Hv. split.
  - intros l' x ->. by apply (pop_back_runs s l' x).
  - intros ->. by apply pop_back_removes_empty.
Qed.

(** Blocks other than the vector's own are where [released] keeps them. *)
Lemma released_lookup s k :
  data_ (self s) <> Some k -> released s !! k = heap s !! k.
Proof.
  intros Hk. unfold released. destruct (data_ (self s)) as [a|]; [|done].
  apply lookup_delete_ne. congruence.
Qed.

Lemma heap_eq_released s s' a :
  data_ (self s) = Some a -> data_ (self s') = Some a ->
  released s' = released s ->
  heap s' !! a = heap s !! a ->
  heap s' = heap s.
Proof.
  intros Ha Ha' Hrel Hlook. apply map_eq. intros k.
  destruct (decide (k = a)) as [->|Hne]; [done|].
  rewrite <- (released_lookup s k), <- (released_lookup s' k), Hrel
    by congruence.
  done.
Qed.

(** X4: [push_back(x)] followed by [pop_back()] gives back the elements and
    the size; the capacity is the one after the [push_back], and when the
    [push_back] did not have to grow the members and the whole heap are
    exactly as before. *)
Theorem push_back_pop_back (s : state) (l : list T) (x : T) (s1 : state) :
  valid s l ->
  push_back x s = Val tt s1 ->
  exists s2,
    pop_back s1 = Val tt s2 /\
    elements s2 = Some l /\
    size s2 = Val (size_ (self s)) s2 /\
    capacity s2 = Val (capacity_ (self s1)) s2 /\
    (size_ (self s) <> capacity_ (self s) ->
     self s2 = self s /\ heap s2 = heap s).
Proof.
  intros Hv Hrun. pose proof (push_back_spec s l x Hv) as Hpb.
  rewrite Hrun in Hpb. destruct Hpb as (Hv1 & Hcap1 & _ & _ & Heff & Hrel1).
  destruct (valid_nonempty_data _ _ Hv1) as [a Ha]; [by destruct l|].
  pose proof (valid_size_fits _ _ Hv1) as Hfit1.
  destruct Hv1 as (free1 & Hst1 & Hc1 & Hb1).
  pose proof (pop_back_state s1 l x free1 a Hst1 Ha Hfit1) as Hpop.
  eexists. split; [exact Hpop|].
  assert (Hsz : size_ (self s) = N.of_nat (length l))
    by (destruct Hv as (? & [? _] & _); done).
  split.
  { eapply (stores_elements _ l (S free1)). split; [done|].
    cbn [self data_ heap]. by rewrite lookup_insert_eq. }
  split; [unfold size, get_size; cbn [self size_]; by rewrite Hsz|].
  split; [done|].
  intros Hne. apply N.eqb_neq in Hne. rewrite Hne in Heff, Hcap1.
  destruct Heff as (Hd & _ & a' & Ha' & _).
  assert (a' = a) as -> by congruence.
  destruct Hv as (free & [_ Hdata] & Hc & _). rewrite Ha' in Hdata.
  rewrite length_app in Hc1. simpl in Hc1.
  assert (S free1 = free) as <- by lia.
  split.
  - cbn [self]. rewrite Hcap1, <- Hsz, <- Ha'. by destruct (self s).
  - apply (heap_eq_released _ _ a); [done|done| |].
    + rewrite <- Hrel1. unfold released. cbn [self data_ heap].
      by rewrite Ha, delete_insert_eq.
    + cbn [heap]. by rewrite lookup_insert_eq.
Qed.

Lemma clear_effects (s : state) (l : list T) :
  valid s l ->
  exists s',
    clear s = Val tt s' /\
    valid s' [] /\ elements s' = Some [] /\ empty s' = Val true s' /\
    capacity_ (self s') = capacity_ (self s) /\
    data_ (self s') = data_ (self s) /\
    released s' = released s /\
    trace s' = trace s ++
      match data_ (self s) with
      | Some a => destroy_events a (length l)
      | None => []
      end.
Proof.
  intros (free & [Hsz Hdata] & Hcap & Hfit). unfold clear.
  cbv beta iota delta [bind get_size set_size get_data with_self].
  assert (Hshow : forall s', valid s' [] ->
            elements s' = Some [] /\ empty s' = Val true s').
  { intros s' Hv'. split; [by apply valid_elements|].
    destruct Hv' as (? & [Hsz' _] & _).
    unfold empty, bind, size, get_size, ret. by rewrite Hsz'. }
  destruct (data_ (self s)) as [a|] eqn:Ha.
  - rewrite Hsz.
    rewrite (reverse_destroy_n_run a l (replicate free None) s (length l))
      by done.
    cbn [self size_ capacity_ data_ heap trace ctor_faults alloc_faults].
    set (s' := State _ _ _ _ _).
    assert (Hv' : valid s' []).
    { exists (length l + free)%nat.
      split; [split; [done|]|split; [done|done]].
      unfold s'. cbn [self data_ heap]. rewrite Ha, lookup_insert_eq.
      by rewrite replicate_add. }
    exists s'. split; [done|]. split; [done|].
    destruct (Hshow s' Hv') as [Hel Hem].
    split; [done|]. split; [done|]. split; [done|]. split; [done|].
    split; [|done].
    unfold released, s'. cbn [self data_ heap]. rewrite Ha.
    by rewrite delete_insert_eq.
  - destruct Hdata as [-> ->]. rewrite Hsz. simpl. unfold ret.
    set (s' := State _ _ _ _ _).
    assert (Hv' : valid s' []).
    { exists 0%nat. split; [split; [done|]|split; [done|done]].
      unfold s'. cbn [self data_]. by rewrite Ha. }
    exists s'. split; [done|]. split; [done|].
    destruct (Hshow s' Hv') as [Hel Hem].
    split; [done|]. split; [done|]. split; [done|]. split; [done|].
    split; [|by rewrite app_nil_r].
    unfold released, s'. cbn [self data_ heap]. by rewrite Ha.
Qed.

Lemma clear_run_full s (l : list T) :
  valid s l ->
  exists s',
    clear s = Val tt s' /\ valid s' [] /\
    data_ (self s') = data_ (self s) /\ released s' = released s.
Proof.
  intros Hv.
  destruct (clear_effects s l Hv) as (s' & ? & ? & _ & _ & _ & ? & ? & _).
  by exists s'.
Qed.

(** X5: [clear()] on a valid vector always returns; it destroys the
    elements last to first and sets the size to 0, so the vector is empty,
    and it keeps the capacity, the pointer and the block, all of whose slots
    are raw afterwards. *)
Theorem clear_keeps_capacity (s : state) (l : list T) :
  valid s l ->
  exists s',
    clear s = Val tt s' /\
    valid s' [] /\ elements s' = Some [] /\ empty s' = Val true s' /\
    capacity_ (self s') = capacity_ (self s) /\
    data_ (self s') = data_ (self s) /\
    released s' = released s /\
    trace s' = trace s ++
      match data_ (self s) with
      | Some a => destroy_events a (length l)
      | None => []
      end.
Proof. apply clear_effects. Qed.

(** X6: the destructor of a valid vector always returns; it destroys the
    elements last to first, then releases the block, and leaves every other
    block of the heap as it is. *)
Theorem destructor_releases (s : state) (l : list T) :
  valid s l ->
  exists s',
    destructor s = Val tt s' /\
    heap s' = released s /\
    (forall a, data_ (self s) = Some a -> heap s' !! a = None) /\
    (forall k, data_ (self s) <> Some k -> heap s' !! k = heap s !! k) /\
    trace s' = trace s ++ release_events s (length l).
Proof.
  intros Hv. destruct (destructor_run s l Hv) as (s' & Hrun & Hheap & Htr).
  exists s'. split; [done|]. split; [done|].
  split; [|split; [|done]].
  - intros a Ha. rewrite Hheap. unfold released. rewrite Ha.
    apply lookup_delete_eq.
  - intros k Hk. rewrite Hheap. by apply released_lookup.
Qed.

(** ** Sequences of [push_back] *)

Lemma push_all_released (xs : list T) : forall s l s',
  valid s l -> push_all xs s = Val tt s' -> released s' = released s.
Proof.
  induction xs as [|x xs IH]; intros s l s' Hv.
  - by intros [= <-].
  - cbn [push_all]. unfold bind.
    pose proof (push_back_spec s l x Hv) as Hpb.
    destruct (push_back x s) as [[] s1|e s1|]; [|done|done].
    destruct Hpb as (Hv1 & _ & _ & _ & _ & Hrel). intros Hrun.
    rewrite <- Hrel. by eapply IH.
Qed.

(** X7: a vector built from a default-constructed one by [push_back] calls
    and then destroyed leaves the heap exactly as it was before the first
    call: every block the calls allocated is released again. *)
Theorem build_and_destroy (xs : list T) (s s1 : state) :
  self s = empty_vec ->
  push_all xs s = Val tt s1 ->
  exists s2, destructor s1 = Val tt s2 /\ heap s2 = heap s.
Proof.
  intros Hs Hrun. pose proof (valid_empty s Hs) as Hv.
  pose proof (push_all_spec xs s [] Hv) as Hsp. rewrite Hrun in Hsp.
  destruct Hsp as [Hv1 _].
  destruct (destructor_run s1 _ Hv1) as (s2 & Hd & Hheap & _).
  exists s2. split; [done|].
  rewrite Hheap, (push_all_released xs s [] s1 Hv Hrun).
  unfold released. by rewrite Hs.
Qed.

Lemma allocations_app t1 t2 :
  allocations (t1 ++ t2) = (allocations t1 + allocations t2)%nat.
Proof. unfold allocations. by rewrite List.filter_app, length_app. Qed.

Lemma allocations_construct d i k : allocations (construct_events d i k) = 0%nat.
Proof.
  unfold allocations, construct_events. revert i.
  induction k as [|k IH]; intros i; [done|]. simpl. apply IH.
Qed.

Lemma allocations_destroy d k : allocations (destroy_events d k) = 0%nat.
Proof.
  unfold allocations, destroy_events.
  induction (reverse (seq 0 k)) as [|j js IH]; [done|]. simpl. apply IH.
Qed.

Lemma allocations_release s n : allocations (release_events s n) = 0%nat.
Proof.
  unfold release_events. destruct (data_ (self s)); [|done].
  by rewrite allocations_app, allocations_destroy.
Qed.

Lemma push_back_allocations s (l : list T) x s' :
  valid s l -> push_back x s = Val tt s' ->
  allocations (trace s') =
    (allocations (trace s)
     + if (size_ (self s) =? capacity_ (self s))%N then 1 else 0)%nat.
Proof.
  intros Hv Hrun. pose proof (push_back_spec s l x Hv) as Hpb.
  rewrite Hrun in Hpb. destruct Hpb as (_ & _ & _ & _ & Heff & _).
  destruct (size_ (self s) =? capacity_ (self s)).
  - destruct Heff as (d & _ & _ & ->).
    rewrite allocations_app.
    change (EvNew d ?b :: ?t) with ([EvNew d b] ++ t).
    rewrite !allocations_app, allocations_construct, allocations_release.
    reflexivity.
  - destruct Heff as (_ & _ & a & _ & ->). by rewrite allocations_app.
Qed.

Lemma size_step n c :
  grown_capacity n c ->
  N.size (n + 1) = N.size n + (if n =? c then 1 else 0).
Proof.
  intros Hg. pose proof (grown_capacity_closed _ _ Hg) as Hc.
  pose proof (grown_capacity_closed _ _ (grown_capacity_step _ _ Hg)) as Hc'.
  assert (Hpos : forall k, 1 <= 2 ^ k).
  { intros k. pose proof (N.pow_nonzero 2 k). lia. }
  pose proof (Hpos (N.size n)). pose proof (Hpos (N.size (n + 1))).
  destruct (n =? c) eqn:Heq.
  - assert (Hpow : 2 ^ N.size (n + 1) = 2 ^ N.succ (N.size n))
      by (rewrite N.pow_succ_r'; lia).
    apply N.pow_inj_r in Hpow; lia.
  - assert (Hpow : 2 ^ N.size (n + 1) = 2 ^ N.size n) by lia.
    apply N.pow_inj_r in Hpow; lia.
Qed.

Lemma push_all_allocations (xs : list T) : forall s l s',
  valid s l ->
  grown_capacity (size_ (self s)) (capacity_ (self s)) ->
  push_all xs s = Val tt s' ->
  (allocations (trace s') + N.to_nat (N.size (size_ (self s))))%nat =
  (allocations (trace s) + N.to_nat (N.size (size_ (self s'))))%nat.
Proof.
  induction xs as [|x xs IH]; intros s l s' Hv Hg.
  - by intros [= <-].
  - cbn [push_all]. unfold bind.
    destruct (push_back x s) as [[] s1|e s1|] eqn:Hpb; [|done|done].
    intros Hrun.
    pose proof (push_back_allocations s l x s1 Hv Hpb) as Hal.
    pose proof (push_back_spec s l x Hv) as Hsp. rewrite Hpb in Hsp.
    destruct Hsp as (Hv1 & Hcap & _).
    assert (Hsz1 : size_ (self s1) = size_ (self s) + 1).
    { destruct Hv as (? & [-> _] & _). destruct Hv1 as (? & [-> _] & _).
      rewrite length_app. simpl. lia. }
    assert (Hg1 : grown_capacity (size_ (self s1)) (capacity_ (self s1))).
    { rewrite Hsz1, Hcap. by apply grown_capacity_step. }
    pose proof (IH s1 _ s' Hv1 Hg1 Hrun) as HIH.
    pose proof (size_step _ _ Hg) as Hstep. rewrite <- Hsz1 in Hstep.
    destruct (size_ (self s) =? capacity_ (self s)); lia.
Qed.

(** X8: [n] calls of [push_back] on a default-constructed vector allocate as
    many blocks as [n] has binary digits (none for 0, 1 for 1, 2 for 2 and 3,
    3 for 4 to 7, ...). *)
Theorem push_back_allocation_count (xs : list T) (s s' : state) :
  self s = empty_vec ->
  push_all xs s = Val tt s' ->
  allocations (trace s') =
    (allocations (trace s) + N.to_nat (N.size (N.of_nat (length xs))))%nat.
Proof.
  intros Hs Hrun. pose proof (valid_empty s Hs) as Hv.
  assert (Hg : grown_capacity (size_ (self s)) (capacity_ (self s))).
  { rewrite Hs. exists 0. simpl. lia. }
  pose proof (push_all_allocations xs s [] s' Hv Hg Hrun) as Hal.
  pose proof (push_all_spec xs s [] Hv) as Hsp. rewrite Hrun in Hsp.
  destruct Hsp as [(? & [Hsz' _] & _) _]. simpl in Hsz'.
  rewrite Hs, Hsz' in Hal. simpl in Hal. lia.
Qed.

(** X9: while the elements fit the capacity, [push_back] calls neither
    allocate nor move the elements: the pointer and the capacity stay, no
    [operator new] happens, so a planned allocation failure cannot make the
    calls fail, and an exception can only come from an element copy. *)
Theorem push_back_within_capacity (xs : list T) (s : state) (l : list T) :
  valid s l ->
  N.of_nat (length l + length xs) <= capacity_ (self s) ->
  (forall s', push_all xs s = Val tt s' ->
     data s' = Val (data_ (self s)) s' /\
     capacity s' = Val (capacity_ (self s)) s' /\
     elements s' = Some (l ++ xs) /\
     allocations (trace s') = allocations (trace s) /\
     alloc_faults s' = alloc_faults s) /\
  (forall e s', push_all xs s = Exn e s' -> e = ctor_failure) /\
  push_all xs s <> Undef /\
  (fault_free (ctor_faults s) -> exists s', push_all xs s = Val tt s').
Proof.
  revert s l. induction xs as [|x xs IH]; intros s l Hv Hfit.
  - simpl. unfold ret. split; [|split; [done|split; [done|by eexists]]].
    intros s' [= <-]. rewrite app_nil_r.
    split; [done|]. split; [done|]. split; [by apply valid_elements|done].
  - cbn [push_all]. unfold bind. simpl in Hfit.
    assert (Hsz : size_ (self s) = N.of_nat (length l))
      by (destruct Hv as (? & [? _] & _); done).
    assert (Hne : (size_ (self s) =? capacity_ (self s)) = false)
      by (apply N.eqb_neq; lia).
    pose proof (push_back_spec s l x Hv) as Hpb. rewrite Hne in Hpb.
    destruct (push_back x s) as [[] s1|e s1|].
    + destruct Hpb
        as (Hv1 & Hcap & [kc Hkc] & _ & (Hd & Haf & a & Ha & Htr) & _).
      assert (Hal : allocations (trace s1) = allocations (trace s))
        by (by rewrite Htr, allocations_app, Nat.add_0_r).
      destruct (IH s1 (l ++ [x]) Hv1) as (Hval & Hexn & Hund & Hprog).
      { rewrite Hcap, length_app. simpl. lia. }
      split; [|split; [done|split; [done|]]].
      * intros s' Hrun. destruct (Hval s' Hrun) as (Hd' & Hc' & He' & Ha' & Hf').
        unfold data, capacity, get_data, get_capacity in *.
        rewrite <- Hd, <- Hcap, <- app_assoc in *.
        split; [done|]. split; [done|]. split; [done|].
        split; [lia|congruence].
      * intros Hcf. apply Hprog. rewrite Hkc. by apply fault_free_drop.
    + destruct Hpb as (_ & _ & Hpb).
      split; [done|]. split; [|split; [done|]].
      * intros e' s' [= <- <-]. destruct e; [|done].
        destruct Hpb as (_ & _ & Heq). apply N.eqb_neq in Hne. done.
      * intros Hcf. destruct e.
        -- destruct Hpb as (_ & _ & Heq). apply N.eqb_neq in Hne. done.
        -- destruct Hpb as [(j & _ & Hj) _].
           by apply fault_free_lookup in Hj.
    + destruct Hpb as [Hpb _]. apply N.eqb_neq in Hne. done.
Qed.

(** ** Copies *)

(** X10: the copy constructor, for a valid source, either returns or throws;
    when it returns, the copy has the elements of the source, its block, if
    it has one, was not allocated before and is not the block of the source,
    its capacity is the size of the source, every other block of the heap is
    as it was and the source keeps its elements; it returns when nothing is
    planned to fail. *)
Theorem copy_ctor_copies (s : state) (other : vec) (l : list T) :
  valid (with_self other s) l ->
  (forall s', copy_ctor other s = Val tt s' ->
     elements s' = Some l /\
     size s' = Val (size_ other) s' /\
     capacity s' = Val (size_ other) s' /\
     elements (with_self other s') = Some l /\
     (forall d, data_ (self s') = Some d ->
        heap s !! d = None /\ data_ other <> Some d) /\
     (forall k, data_ (self s') <> Some k -> heap s' !! k = heap s !! k)) /\
  copy_ctor other s <> Undef /\
  (fault_free (ctor_faults s) -> fault_free (alloc_faults s) ->
   exists s', copy_ctor other s = Val tt s').
Proof.
  intros Hv. pose proof (copy_ctor_spec s other l Hv) as Hcc.
  split; [|split].
  - intros s' Hrun. rewrite Hrun in Hcc.
    destruct Hcc as (Hv' & Hvo & Hself & _ & Hfresh & Hheap & _).
    split; [by apply valid_elements|].
    unfold size, capacity, get_size, get_capacity. rewrite Hself. simpl.
    split; [done|]. split; [done|]. split; [by apply valid_elements|].
    split.
    + intros d Hd. split; [by apply Hfresh|].
      intros Ho. destruct Hv as (free & [_ Hdata] & _).
      cbn [with_self self data_ heap] in Hdata. rewrite Ho in Hdata.
      by rewrite (Hfresh d Hd) in Hdata.
    + intros k Hk. rewrite Hheap.
      destruct (data_ (self s')) as [d|]; [|done].
      apply lookup_insert_ne. congruence.
  - intros Hund. by rewrite Hund in Hcc.
  - intros Hcf Haf. destruct (copy_ctor other s) as [[] s'|e s'|].
    + by exists s'.
    + destruct Hcc as [_ Hcc]. destruct e.
      * destruct Hcc as [Hcc _]. by rewrite fault_free_next in Hcc.
      * destruct Hcc as (d & j & _ & Hj & _).
        by apply fault_free_lookup in Hj.
    + done.
Qed.

(** A valid object stays valid, with its elements, over any heap that keeps
    its block. *)
Lemma valid_frame s s' (v : vec) (l : list T) :
  valid (with_self v s) l ->
  (forall a, data_ v = Some a -> heap s' !! a = heap s !! a) ->
  valid (with_self v s') l.
Proof.
  intros (free & [Hsz Hdata] & Hcap & Hfit) Hframe.
  cbn [with_self self data_ heap] in *.
  exists free. split; [split; [done|]|split; done].
  cbn [with_self self data_ heap].
  destruct (data_ v) as [a|]; [|done]. by rewrite Hframe.
Qed.

(** X11: the copy is independent of its source: after a [push_back], a
    [pop_back], a [clear] or the destructor on the copy, the source still
    has its elements. *)
Theorem copy_is_independent (s : state) (other : vec) (l : list T)
    (s1 : state) :
  valid (with_self other s) l ->
  copy_ctor other s = Val tt s1 ->
  (forall x s2, push_back x s1 = Val tt s2 ->
     elements s2 = Some (l ++ [x]) /\
     elements (with_self other s2) = Some l) /\
  (forall s2, pop_back s1 = Val tt s2 ->
     elements (with_self other s2) = Some l) /\
  (forall s2, clear s1 = Val tt s2 ->
     elements s2 = Some [] /\ elements (with_self other s2) = Some l) /\
  (forall s2, destructor s1 = Val tt s2 ->
     elements (with_self other s2) = Some l).
Proof.
  intros Hv Hrun. pose proof (copy_ctor_spec s other l Hv) as Hcc.
  rewrite Hrun in Hcc.
  destruct Hcc as (Hv1 & Hvo & _ & _ & Hfresh & Hheap & _).
  assert (Hown : forall a, data_ other = Some a ->
            is_Some (heap s1 !! a) /\ data_ (self s1) <> Some a).
  { intros a Ha. destruct Hv as (free & [_ Hdata] & _).
    cbn [with_self self data_ heap] in Hdata. rewrite Ha in Hdata.
    assert (Hne : data_ (self s1) <> Some a).
    { intros Hd. by rewrite (Hfresh a Hd) in Hdata. }
    split; [|done]. rewrite Hheap.
    destruct (data_ (self s1)) as [d|]; [|by eexists].
    rewrite lookup_insert_ne by congruence. by eexists. }
  assert (Hkeep : forall s2,
            released s2 = released s1 ->
            (forall a, data_ other = Some a -> data_ (self s2) <> Some a) ->
            elements (with_self other s2) = Some l).
  { intros s2 Hrel Hd2. apply valid_elements.
    apply (valid_frame s1); [done|]. intros a Ha.
    destruct (Hown a Ha) as [_ Hne].
    rewrite <- (released_lookup s2 a), <- (released_lookup s1 a), Hrel
      by auto.
    done. }
  split; [|split; [|split]].
  - intros x s2 Hpb. pose proof (push_back_spec s1 l x Hv1) as Hsp.
    rewrite Hpb in Hsp. destruct Hsp as (Hv2 & _ & _ & _ & Heff & Hrel).
    split; [by apply valid_elements|]. apply Hkeep; [done|].
    intros a Ha. destruct (Hown a Ha) as [[b Hb] Hne].
    destruct (size_ (self s1) =? capacity_ (self s1)).
    + destruct Heff as (d & Hd & -> & _). congruence.
    + destruct Heff as (-> & _). done.
  - intros s2 Hpop.
    destruct l as [|y l _] using rev_ind.
    + pose proof (pop_back_removes_empty s1 Hv1) as Hund. congruence.
    + destruct (pop_back_runs s1 l y Hv1)
        as (s2' & a & Hp & _ & Hd1 & Hd2 & _ & Hrel & _).
      assert (s2' = s2) as -> by congruence.
      apply Hkeep; [done|]. intros a0 Ha0.
      destruct (Hown a0 Ha0) as [_ Hne]. congruence.
  - intros s2 Hcl.
    destruct (clear_run_full s1 l Hv1) as (s2' & Hc & Hv2 & Hd2 & Hrel).
    assert (s2' = s2) as -> by congruence.
    split; [by apply valid_elements|]. apply Hkeep; [done|].
    intros a Ha. destruct (Hown a Ha) as [_ Hne]. congruence.
  - intros s2 Hde.
    destruct (destructor_run s1 l Hv1) as (s2' & Hd & Hh & _).
    assert (s2' = s2) as -> by congruence.
    apply valid_elements. apply (valid_frame s1); [done|].
    intros a Ha. destruct (Hown a Ha) as [_ Hne].
    rewrite Hh. by apply released_lookup.
Qed.

(** ** Assignment *)

Lemma vec_eta (v : vec) : Vec (size_ v) (capacity_ v) (data_ v) = v.
Proof. by destruct v. Qed.

Lemma with_self_self s : with_self (self s) s = s.
Proof. by destruct s. Qed.

(** The destructor run on a valid object [v] that is not [*this]. *)
Lemma on_object_destructor s (v : vec) (l : list T) :
  valid (with_self v s) l ->
  exists s',
    on_object v destructor s = Val (tt, self s') (with_self (self s) s') /\
    heap s' = released (with_self v s) /\
    trace s' = trace s ++ release_events (with_self v s) (length l).
Proof.
  intros Hv. unfold on_object.
  destruct (destructor_run _ l Hv) as (s' & Hrun & Hheap & Htr).
  exists s'. by rewrite Hrun.
Qed.

(** Copy assignment from another valid object whose block is not the block
    of [*this]. *)
Lemma copy_assign_spec s (o : vec) (l lo : list T) :
  valid s l ->
  valid (with_self o s) lo ->
  (forall a, data_ (self s) = Some a -> data_ o <> Some a) ->
  match copy_assign (Some o) s with
  | Val _ s' =>
      valid s' lo /\ valid (with_self o s') lo /\
      capacity_ (self s') = size_ o /\
      (forall a, data_ (self s) = Some a -> heap s' !! a = None) /\
      (forall k, data_ (self s) <> Some k -> data_ (self s') <> Some k ->
         heap s' !! k = heap s !! k)
  | Exn e s' =>
      self s' = self s /\ heap s' = heap s /\
      match e with
      | bad_alloc => next_fault (alloc_faults s) = true
      | ctor_failure => exists j, ctor_faults s !! j = Some true
      end
  | Undef => False
  end.
Proof.
  intros Hv Hvo Hdistinct. unfold copy_assign.
  unfold bind at 1. unfold on_object at 1.
  pose proof (copy_ctor_spec (with_self empty_vec s) o lo Hvo) as Hcc.
  destruct (copy_ctor o (with_self empty_vec s)) as [[] s1|e s1|];
    [| |done].
  - destruct Hcc as (Hv1 & Hvo1 & Hself1 & _ & Hfresh & Hheap & _).
    cbn [with_self heap self] in Hfresh, Hheap.
    cbn [snd with_self self]. unfold bind at 1, swap.
    cbn [with_self self heap trace ctor_faults alloc_faults].
    rewrite !vec_eta.
    set (sB := with_self (self s1) (with_self (self s) s1)).
    assert (HsB : sB = s1) by (unfold sB; by destruct s1).
    assert (Hkeep : forall a, data_ (self s) = Some a ->
              heap s1 !! a = heap s !! a /\ data_ (self s1) <> Some a).
    { intros a Ha. destruct Hv as (free & [_ Hdata] & _).
      rewrite Ha in Hdata.
      assert (Hne : data_ (self s1) <> Some a).
      { intros Hd. by rewrite (Hfresh a Hd) in Hdata. }
      split; [|done]. rewrite Hheap.
      destruct (data_ (self s1)) as [d|]; [|done].
      apply lookup_insert_ne. congruence. }
    assert (Hvold : valid (with_self (self s) sB) l).
    { rewrite HsB. apply (valid_frame s); [by rewrite with_self_self|].
      intros a Ha. by apply Hkeep. }
    destruct (on_object_destructor sB (self s) l Hvold)
      as (s2 & Hrun & Hheap2 & _).
    unfold bind. rewrite Hrun. unfold ret.
    unfold released in Hheap2.
    cbn [with_self self data_ heap] in Hheap2. rewrite HsB in Hheap2.
    rewrite HsB. clear sB HsB Hvold Hrun.
    assert (Hlook : forall k, data_ (self s) <> Some k ->
              heap s2 !! k = heap s1 !! k).
    { intros k Hk. rewrite Hheap2.
      destruct (data_ (self s)) as [a|]; [|done].
      apply lookup_delete_ne. congruence. }
    split; [|split; [|split; [|split]]].
    + apply (valid_frame s1); [by rewrite with_self_self|].
      cbn [with_self heap]. intros d Hd. apply Hlook.
      intros Ha. by destruct (Hkeep d Ha).
    + apply (valid_frame s1); [done|].
      cbn [with_self heap]. intros a Ha. apply Hlook.
      intros Hs. by apply (Hdistinct a).
    + cbn [with_self self]. by rewrite Hself1.
    + cbn [with_self heap]. intros a Ha. rewrite Hheap2, Ha.
      apply lookup_delete_eq.
    + cbn [with_self heap self]. intros k Hk Hk1.
      rewrite (Hlook k Hk), Hheap.
      destruct (data_ (self s1)) as [d|]; [|done].
      apply lookup_insert_ne. congruence.
  - cbn [with_self self heap]. destruct Hcc as [Hheap Hcc].
    cbn [with_self heap alloc_faults ctor_faults] in Hheap, Hcc.
    split; [done|]. split; [done|]. destruct e.
    + by destruct Hcc.
    + destruct Hcc as (d & j & _ & Hj & _). by exists j.
Qed.

(** X12: copy assignment from another valid vector has the strong
    guarantee: when it throws, members and heap are as before; when it
    returns, [*this] has the elements of the source, with capacity equal to
    the source's size, the source keeps its elements, and the block [*this]
    had before is released.  Assigning a vector to itself changes
    nothing. *)
Theorem copy_assign_replaces (s : state) (o : vec) (l lo : list T) :
  valid s l ->
  valid (with_self o s) lo ->
  (forall a, data_ (self s) = Some a -> data_ o <> Some a) ->
  (forall s', copy_assign (Some o) s = Val tt s' ->
     elements s' = Some lo /\
     capacity s' = Val (size_ o) s' /\
     elements (with_self o s') = Some lo /\
     (forall a, data_ (self s) = Some a -> heap s' !! a = None)) /\
  (forall e s', copy_assign (Some o) s = Exn e s' ->
     self s' = self s /\ heap s' = heap s /\ elements s' = Some l) /\
  copy_assign (Some o) s <> Undef /\
  (fault_free (ctor_faults s) -> fault_free (alloc_faults s) ->
   exists s', copy_assign (Some o) s = Val tt s') /\
  copy_assign None s = Val tt s.
Proof.
  intros Hv Hvo Hdistinct.
  pose proof (copy_assign_spec s o l lo Hv Hvo Hdistinct) as Hca.
  split; [|split; [|split; [|split; [|done]]]].
  - intros s' Hrun. rewrite Hrun in Hca.
    destruct Hca as (Hv' & Hvo' & Hcap & Hold & _).
    split; [by apply valid_elements|].
    split; [unfold capacity, get_capacity; by rewrite Hcap|].
    split; [by apply valid_elements|done].
  - intros e s' Hrun. rewrite Hrun in Hca.
    destruct Hca as (Hself & Hheap & _). split; [done|]. split; [done|].
    rewrite <- (valid_elements s l Hv). unfold elements.
    by rewrite Hself, Hheap.
  - intros Hund. by rewrite Hund in Hca.
  - intros Hcf Haf. destruct (copy_assign (Some o) s) as [[] s'|e s'|].
    + by exists s'.
    + destruct Hca as (_ & _ & Hca). destruct e.
      * by rewrite fault_free_next in Hca.
      * destruct Hca as [j Hj]. by apply fault_free_lookup in Hj.
    + done.
Qed.

(** X13: move assignment from another valid vector always returns and
    neither destroys nor releases anything: [*this] gets the members of the
    source and the source gets those of [*this], over the same heap, so the
    former elements of [*this] now belong to the source, and it is the
    destructor of the source that releases them.  Assigning a vector to
    itself changes nothing. *)
Theorem move_assign_hands_over (s : state) (o : vec) (l lo : list T) :
  valid s l ->
  valid (with_self o s) lo ->
  (forall a, data_ (self s) = Some a -> data_ o <> Some a) ->
  (exists s',
     move_assign (Some o) s = Val (Some (self s)) s' /\
     self s' = o /\ heap s' = heap s /\ trace s' = trace s /\
     elements s' = Some lo /\
     elements (with_self (self s) s') = Some l /\
     exists r s'',
       on_object (self s) destructor s' = Val r s'' /\
       heap s'' = released s /\
       elements s'' = Some lo) /\
  move_assign None s = Val None s.
Proof.
  intros Hv Hvo Hdistinct. split; [|done].
  unfold move_assign, bind, swap, ret. rewrite !vec_eta.
  eexists. split; [reflexivity|].
  split; [done|]. split; [done|]. split; [done|].
  split; [by apply valid_elements|].
  assert (Hvold : valid (with_self (self s) (with_self o s)) l).
  { apply (valid_frame s); [by rewrite with_self_self|done]. }
  split; [by apply valid_elements|].
  destruct (on_object_destructor (with_self o s) (self s) l Hvold)
    as (s2 & Hrun & Hheap & _).
  eexists _, _. split; [exact Hrun|].
  unfold released in Hheap. cbn [with_self self data_ heap] in Hheap.
  split; [done|].
  apply valid_elements. apply (valid_frame s); [done|].
  cbn [with_self heap]. intros a Ha. rewrite Hheap.
  destruct (data_ (self s)) as [a'|] eqn:Ha'; [|done].
  apply lookup_delete_ne. intros ->. by apply (Hdistinct a).
Qed.

(** ** [shrink_to_fit], [insert], [reserve] once more *)

Lemma shrink_to_fit_spec s (l : list T) :
  valid s l -> l <> [] ->
  match shrink_to_fit s with
  | Val _ s' =>
      valid s' l /\ capacity_ (self s') = size_ (self s) /\
      if size_ (self s) =? capacity_ (self s) then s' = s
      else
        exists d, heap s !! d = None /\ data_ (self s') = Some d /\
          heap s' = <[d := Some <$> l]> (released s)
  | Exn e s' =>
      self s' = self s /\ heap s' = heap s /\
      match e with
      | bad_alloc => next_fault (alloc_faults s) = true
      | ctor_failure => exists j, ctor_faults s !! j = Some true
      end
  | Undef => False
  end.
Proof.
  intros Hv Hl. pose proof Hv as (free & Hst & Hcap & Hfit).
  assert (Hsz : size_ (self s) = N.of_nat (length l)) by apply Hst.
  assert (Hne : (size_ (self s) =? 0) = false).
  { apply N.eqb_neq. destruct l; [done|simpl in *; lia]. }
  unfold shrink_to_fit, empty, size.
  cbv beta iota delta [bind get_size get_capacity ret]. rewrite Hne.
  destruct (size_ (self s) =? capacity_ (self s)) eqn:Heq; cbn [negb].
  - apply N.eqb_eq in Heq. by rewrite Heq.
  - apply N.eqb_neq in Heq.
    assert (Hfit' : size_ (self s) * sizeof < 2 ^ SIZE_WIDTH).
    { assert (size_ (self s) * sizeof <= capacity_ (self s) * sizeof)
        by (apply N.mul_le_mono_r; lia). lia. }
    assert (Hslots : slots (size_ (self s)) = length l).
    { rewrite slots_exact by done. lia. }
    pose proof (relocate_spec s l free (size_ (self s)) (size_ (self s)) Hst)
      as Hre. unfold bind in Hre. rewrite Hslots in Hre.
    destruct (match reallocate (size_ (self s)) s with
              | Val a s1 => swap_data a (size_ (self s)) s1
              | Exn e s1 => Exn e s1
              | Undef => Undef
              end) as [[] s'|e s'|].
    + destruct Hre as (d & Hd & _ & Hself & Hst' & Hheap & _).
      rewrite Nat.sub_diag in Hst', Hheap. simpl in Hheap.
      rewrite app_nil_r in Hheap.
      split; [|split; [by rewrite Hself|]].
      * exists 0%nat. split; [done|]. rewrite Hself. simpl.
        split; [lia|done].
      * exists d. by rewrite Hself.
    + destruct Hre as (Hself & Hheap & _ & Hre).
      split; [done|]. split; [done|]. destruct e.
      * by destruct Hre.
      * destruct Hre as (d & j & _ & Hj & _). by exists j.
    + lia.
Qed.

(** X14: [shrink_to_fit()] on a valid non-empty vector has the strong
    guarantee: when it throws, members and heap are as before.  When it
    returns, the elements are unchanged and the capacity is the size; if the
    two were equal already nothing changes, otherwise the elements are in a
    block that was not allocated before and the old block is released. *)
Theorem shrink_to_fit_fits (s : state) (l : list T) :
  valid s l -> l <> [] ->
  (forall s', shrink_to_fit s = Val tt s' ->
     elements s' = Some l /\
     size s' = Val (size_ (self s)) s' /\
     capacity s' = Val (size_ (self s)) s' /\
     (size_ (self s) = capacity_ (self s) -> s' = s) /\
     (size_ (self s) <> capacity_ (self s) ->
      (exists d, heap s !! d = None /\ data_ (self s') = Some d) /\
      forall a, data_ (self s) = Some a -> heap s' !! a = None)) /\
  (forall e s', shrink_to_fit s = Exn e s' ->
     self s' = self s /\ heap s' = heap s /\ elements s' = Some l) /\
  shrink_to_fit s <> Undef /\
  (fault_free (ctor_faults s) -> fault_free (alloc_faults s) ->
   exists s', shrink_to_fit s = Val tt s').
Proof.
  intros Hv Hl. pose proof (shrink_to_fit_spec s l Hv Hl) as Hsf.
  split; [|split; [|split]].
  - intros s' Hrun. rewrite Hrun in Hsf. destruct Hsf as (Hv' & Hcap & Hsf).
    split; [by apply valid_elements|].
    assert (Hsz' : size_ (self s') = size_ (self s)).
    { destruct Hv as (? & [-> _] & _). by destruct Hv' as (? & [-> _] & _). }
    unfold size, capacity, get_size, get_capacity. rewrite Hsz', Hcap.
    split; [done|]. split; [done|]. split.
    + intros Heq. apply N.eqb_eq in Heq. by rewrite Heq in Hsf.
    + intros Hne. apply N.eqb_neq in Hne. rewrite Hne in Hsf.
      destruct Hsf as (d & Hd & Hnew & ->).
      split; [by exists d|]. intros a Ha.
      assert (a <> d).
      { intros ->. destruct Hv as (? & [_ Hdata] & _).
        rewrite Ha in Hdata. congruence. }
      rewrite lookup_insert_ne by done. unfold released. rewrite Ha.
      apply lookup_delete_eq.
  - intros e s' Hrun. rewrite Hrun in Hsf.
    destruct Hsf as (Hself & Hheap & _). split; [done|]. split; [done|].
    rewrite <- (valid_elements s l Hv). unfold elements.
    by rewrite Hself, Hheap.
  - intros Hund. by rewrite Hund in Hsf.
  - intros Hcf Haf. destruct (shrink_to_fit s) as [[] s'|e s'|].
    + by exists s'.
    + destruct Hsf as (_ & _ & Hsf). destruct e.
      * by rewrite fault_free_next in Hsf.
      * destruct Hsf as [j Hj]. by apply fault_free_lookup in Hj.
    + done.
Qed.

(** X15: on a valid vector, [insert(end(), v)] is [push_back(v)]: the same
    outcome and the same state, and the iterator returned is the former
    [end()]. *)
Theorem insert_at_end_is_push_back (s : state) (l : list T) (v : T) :
  valid s l ->
  insert (size_ (self s)) v s =
    bind (push_back v) (fun _ => ret (size_ (self s))) s.
Proof.
  intros Hv. unfold insert. unfold bind at 1 5.
  pose proof (push_back_spec s l v Hv) as Hpb.
  destruct (push_back v s) as [[] s1|e s1|]; [|done|done].
  destruct Hpb as ((free & [Hsz1 _] & _) & _).
  assert (Hsz : size_ (self s) = N.of_nat (length l))
    by (destruct Hv as (? & [? _] & _); done).
  rewrite length_app in Hsz1. simpl in Hsz1.
  cbv beta iota delta [bind get_data get_size].
  rewrite (proj2 (N.eqb_neq _ _)) by lia.
  replace (N.to_nat (size_ (self s1) - 1)) with (N.to_nat (size_ (self s)))
    by lia.
  by rewrite insert_loop_eq, Nat.eqb_refl.
Qed.



(** X17: [reserve(n)] does not check that [n * sizeof(T)] fits
    [std::size_t].  When the product wraps to less than one element, the
    call on an empty valid vector returns with capacity [n] over a block of
    no slots; the state breaks the invariant of the data model, and every
    [push_back] on it is undefined, a write outside the block. *)
Theorem reserve_overflow (s : state) (n : N) :
  valid s [] ->
  capacity_ (self s) < n ->
  slots n = 0%nat ->
  next_fault (alloc_faults s) = false ->
  exists s' d,
    reserve n s = Val tt s' /\
    self s' = Vec 0 n (Some d) /\
    heap s' !! d = Some [] /\
    ~ invariant s' /\
    forall x, push_back x s' = Undef.
Proof.
  intros Hv Hlt Hslots Hf. pose proof (reserve_spec s [] n Hv) as Hre.
  assert (Hsz : size_ (self s) = 0) by (destruct Hv as (? & [? _] & _); done).
  apply N.ltb_lt in Hlt.
  destruct (reserve n s) as [[] s'|e s'|].
  - rewrite Hlt in Hre. destruct Hre as (d & _ & _ & Hself & [_ Hdata]).
    rewrite Hself, Hslots in Hdata. simpl in Hdata. rewrite Hsz in Hself.
    apply N.ltb_lt in Hlt.
    exists s', d. split; [done|]. split; [done|]. split; [done|]. split.
    + intros (_ & _ & Hblock).
      destruct (Hblock d) as (b & Hb & Hlen); [by rewrite Hself|].
      rewrite Hdata in Hb. injection Hb as <-.
      rewrite Hself in Hlen. simpl in Hlen. lia.
    + intros x. unfold push_back.
      cbv beta iota delta [bind get_size get_capacity get_data].
      rewrite Hself. cbn [size_ capacity_ data_].
      rewrite (proj2 (N.eqb_neq 0 n)) by lia.
      rewrite Hself. cbn [data_]. unfold construct_at. by rewrite Hdata.
  - destruct Hre as (_ & _ & _ & Hre). destruct e.
    + destruct Hre as [Hre _]. congruence.
    + destruct Hre as (d & j & Hj & _). simpl in Hj. lia.
  - destruct Hre as [_ Hre]. simpl in Hre. lia.
Qed.

(** ** [erase(pos)] and move construction *)

(** X18: [erase(pos)] on a valid vector removes the element at [pos], keeps
    the others in order, the block and the capacity, and returns [pos].
    [erase(end())], or any position beyond, is undefined.  Erasing the last
    element is [pop_back()]: the same final state, trace included. *)
Theorem erase_position (s : state) (l : list T) (pos : N) :
  valid s l ->
  (forall x, l !! N.to_nat pos = Some x ->
     exists s',
       erase pos s = Val pos s' /\
       elements s' = Some (delete (N.to_nat pos) l) /\
       size s' = Val (size_ (self s) - 1) s' /\
       capacity s' = Val (capacity_ (self s)) s' /\
       data s' = Val (data_ (self s)) s') /\
  (size_ (self s) <= pos -> erase pos s = Undef) /\
  (l <> [] ->
   erase (size_ (self s) - 1) s =
     bind pop_back (fun _ => ret (size_ (self s) - 1)) s).
Proof.
  intros Hv. pose proof Hv as (free & Hst & Hcap & Hfit).
  assert (Hsz : size_ (self s) = N.of_nat (length l)) by apply Hst.
  split; [|split].
  - intros x Hx. pose proof (lookup_lt_Some _ _ _ Hx) as Hlt.
    set (i := N.to_nat pos) in *.
    assert (Hl : l = take i l ++ [x] ++ drop (S i) l).
    { by rewrite <- (take_drop_middle l i x Hx) at 1. }
    rewrite Hl in Hst.
    destruct (erase_range_run s _ _ _ free Hst) as (s' & Hrun & Hst' & Hc & Hd & _).
    rewrite length_take in Hrun. simpl in Hrun.
    replace (N.of_nat (i `min` length l)) with pos in Hrun by lia.
    replace (N.of_nat (i `min` length l + 1)) with (pos + 1) in Hrun by lia.
    exists s'. split; [done|]. split.
    { rewrite delete_take_drop. by eapply stores_elements. }
    unfold size, capacity, data, get_size, get_capacity, get_data.
    rewrite Hc, Hd. split; [|done]. f_equal. destruct Hst' as [-> _].
    rewrite length_app, length_take, length_drop. lia.
  - intros Hpos. unfold erase, erase_range.
    cbv beta iota zeta delta [bind get_data get_size].
    by rewrite (proj2 (N.ltb_lt _ _)) by lia.
  - intros Hl.
    destruct (valid_nonempty_data s l Hv Hl) as [a Ha].
    assert (Hpos : 0 < size_ (self s)) by (destruct l; [done|simpl in *; lia]).
    pose proof (valid_size_fits s l Hv) as Hlt.
    unfold erase, erase_range, pop_back.
    cbv beta iota zeta delta [bind get_data get_size set_size ret].
    rewrite (proj2 (N.ltb_ge _ _)) by lia.
    replace (N.to_nat (size_ (self s) - (size_ (self s) - 1 + 1))) with 0%nat
      by lia.
    cbn [erase_loop ret fst snd].
    replace (N.to_nat (size_ (self s) - 1 + 1) - N.to_nat (size_ (self s) - 1))%nat
      with 1%nat by lia.
    cbn [destroy_range self data_ size_ with_self].
    replace (wrap_pred (size_ (self s))) with (size_ (self s) - 1).
    2:{ replace (size_ (self s)) with (size_ (self s) - 1 + 1) at 2 by lia.
        rewrite wrap_pred_succ; lia. }
    rewrite Ha. unfold destroy_at, bind, ret. simpl.
    destruct (heap s !! a) as [b|]; [|done].
    destruct (b !! N.to_nat (size_ (self s) - 1)) as [[v|]|]; [|done|done].
    unfold with_self. simpl. by rewrite N2Nat.id, Ha.
Qed.

(** X19: move construction from a valid vector takes over its block: the
    new object has the elements, nothing is allocated, constructed or
    destroyed, and the source is left with no block and no elements, so that
    its destructor afterwards does nothing and the elements stay. *)
Theorem move_ctor_takes_over (s : state) (other : vec) (l : list T) :
  valid (with_self other s) l ->
  exists other' s',
    move_ctor other s = Val other' s' /\
    valid s' l /\
    data s' = Val (data_ other) s' /\
    heap s' = heap s /\ trace s' = trace s /\
    ctor_faults s' = ctor_faults s /\ alloc_faults s' = alloc_faults s /\
    size_ other' = 0 /\ data_ other' = None /\
    elements (with_self other' s') = Some [] /\
    on_object other' destructor s' = Val (tt, other') s'.
Proof.
  intros Hv. exists (Vec 0 (capacity_ other) None), (with_self other s).
  rewrite move_ctor_run. split; [done|]. split; [done|].
  destruct s as [me h t cf af]. by repeat split.
Qed.

(** ** The invariant under the mutators *)

Lemma valid_nonempty_invariant s (l : list T) :
  valid s l -> l <> [] -> invariant s.
Proof.
  intros Hv Hl. apply (valid_invariant s l Hv).
  destruct Hv as (free & _ & Hcap & _). destruct l; [done|].
  simpl in Hcap. lia.
Qed.

(** X20: the mutators keep the invariant of the data model.  From a valid
    vector that satisfies it, the state after a returning [push_back],
    [pop_back], [clear], [shrink_to_fit], [insert] or [erase] satisfies it
    again, and so does the state after [reserve(n)] when [n * sizeof(T)]
    fits [std::size_t]. *)
Theorem mutators_keep_invariant (s : state) (l : list T) :
  valid s l -> invariant s ->
  (forall x s', push_back x s = Val tt s' -> invariant s') /\
  (forall s', pop_back s = Val tt s' -> invariant s') /\
  (forall s', clear s = Val tt s' -> invariant s') /\
  (forall s', shrink_to_fit s = Val tt s' -> invariant s') /\
  (forall n s', n * sizeof < 2 ^ SIZE_WIDTH ->
     reserve n s = Val tt s' -> invariant s') /\
  (forall pos x r s', pos <= size_ (self s) ->
     insert pos x s = Val r s' -> invariant s') /\
  (forall first last r s', first <= last -> last <= size_ (self s) ->
     erase_range first last s = Val r s' -> invariant s').
Proof.
  intros Hv Hinv.
  assert (Hsz : size_ (self s) = N.of_nat (length l))
    by (destruct Hv as (? & [? _] & _); done).
  split; [|split; [|split; [|split; [|split; [|split]]]]].
  - intros x s' Hrun. pose proof (push_back_spec s l x Hv) as Hpb.
    rewrite Hrun in Hpb. destruct Hpb as [Hv' _].
    apply (valid_nonempty_invariant s' _ Hv'). by destruct l.
  - intros s' Hrun.
    assert (l = [] \/ exists l' x, l = l' ++ [x]) as [->|(l' & x & ->)].
    { clear. induction l using rev_ind; eauto. }
    + by rewrite (pop_back_removes_empty s Hv) in Hrun.
    + destruct (pop_back_runs s l' x Hv) as (s1 & a & Hrun1 & Hv1 & _ & _ & Hc & _).
      rewrite Hrun in Hrun1. injection Hrun1 as <-.
      apply (valid_invariant s' l' Hv1). intros Hc0.
      destruct Hv as (free & _ & Hcap & _). rewrite length_app in Hcap.
      simpl in Hcap. lia.
  - intros s' Hrun.
    destruct (clear_effects s l Hv) as (s1 & Hrun1 & Hv1 & _ & _ & Hc & Hd & _).
    rewrite Hrun in Hrun1. injection Hrun1 as <-.
    apply (valid_invariant s' [] Hv1). rewrite Hc, Hd.
    by apply Hinv.
  - intros s' Hrun. destruct l as [|x l].
    + rewrite (shrink_to_fit_empty s Hv) in Hrun. injection Hrun as <-.
      destruct s as [me h t cf af]. simpl in *. rewrite Hsz.
      repeat split; done.
    + pose proof (shrink_to_fit_spec s (x :: l) Hv) as Hsf.
      rewrite Hrun in Hsf. destruct Hsf as [Hv' _]; [done|].
      by apply (valid_nonempty_invariant s' _ Hv').
  - intros n s' Hn Hrun. pose proof (reserve_spec s l n Hv) as Hre.
    rewrite Hrun in Hre.
    destruct (capacity_ (self s) <? n) eqn:Hlt; [|by subst].
    apply N.ltb_lt in Hlt.
    destruct Hre as (d & _ & Hle & Hself & Hst).
    apply (valid_invariant s' l).
    + exists (slots n - length l)%nat. split; [done|].
      rewrite Hself. cbn [capacity_]. rewrite slots_exact in * by done.
      split; [lia|done].
    + rewrite Hself. simpl. lia.
  - intros pos x r s' Hpos Hrun.
    pose proof (insert_spec s l (N.to_nat pos) x Hv) as Hins.
    rewrite N2Nat.id, Hrun in Hins. destruct Hins as (_ & Hv'); [lia|].
    apply (valid_nonempty_invariant s' _ Hv').
    by destruct (take (N.to_nat pos) l).
  - intros first last r s' Hfl Hlast Hrun.
    pose proof Hv as (free & Hst & Hcap & Hfit).
    set (i := N.to_nat first). set (j := N.to_nat last).
    assert (Hl : l = take i l ++ take (j - i) (drop i l) ++ drop j l).
    { rewrite <- (take_drop i l) at 1. f_equal.
      rewrite <- (take_drop (j - i) (drop i l)) at 1. f_equal.
      rewrite drop_drop. f_equal. lia. }
    rewrite Hl in Hst.
    destruct (erase_range_run s _ _ _ free Hst) as (s1 & Hrun1 & Hst1 & Hc & Hd & _).
    rewrite !length_take, length_drop in Hrun1.
    replace (N.of_nat (i `min` length l)) with first in Hrun1 by lia.
    replace (N.of_nat (i `min` length l + (j - i) `min` (length l - i)))
      with last in Hrun1 by lia.
    rewrite Hrun in Hrun1. injection Hrun1 as _ <-.
    apply (valid_invariant s' (take i l ++ drop j l)).
    + eexists. split; [done|]. rewrite Hc. split; [|done].
      rewrite Hcap, !length_app, !length_take, !length_drop. lia.
    + rewrite Hc, Hd. by apply Hinv.
Qed.

End Model.


(** * [vector<int>]: the model run on concrete vectors *)

Lemma one_state_valid : valid (one_state 7%Z) [7%Z].
Proof. exists 0%nat. vm_compute. repeat split. Qed.

Lemma three_state_faulty_valid :
  valid (with_ctor_faults [false; true] (three_state 1%Z 2%Z 3%Z))
    [1%Z; 2%Z; 3%Z].
Proof. exists 0%nat. vm_compute. repeat split. Qed.

Lemma emptied_state_valid : valid (emptied_state 7%Z) [].
Proof. exists 1%nat. vm_compute. repeat split. Qed.

Lemma three_state_valid : valid (three_state 1%Z 2%Z 3%Z) [1%Z; 2%Z; 3%Z].
Proof. exists 0%nat. vm_compute. repeat split. Qed.

(** The first concrete scenario of the specification, run on the model:
    [1; 2; 3], then [insert(begin + 1, 9)], [erase(begin + 1)], [pop_back()]
    and [shrink_to_fit()]. *)
Example spec_scenario :
  elements (three_state 1%Z 2%Z 3%Z) = Some [1%Z; 2%Z; 3%Z] /\
  let s1 := after (insert 1 9%Z) (three_state 1%Z 2%Z 3%Z) in
  elements s1 = Some [1%Z; 9%Z; 2%Z; 3%Z] /\
  let s2 := after (erase 1) s1 in
  elements s2 = Some [1%Z; 2%Z; 3%Z] /\
  let s3 := after pop_back s2 in
  elements s3 = Some [1%Z; 2%Z] /\ size s3 = Val 2 s3 /\
  let s4 := after shrink_to_fit s3 in
  capacity s4 = Val 2 s4 /\ elements s4 = Some [1%Z; 2%Z].
Proof. vm_compute. repeat split. Qed.

Lemma popped_state_valid : valid (popped_state 1%Z 2%Z 3%Z) [1%Z; 2%Z].
Proof. exists 1%nat. vm_compute. repeat split. Qed.

Lemma two_state_valid : valid (two_state 7%Z 8%Z) [7%Z].
Proof. exists 0%nat. vm_compute. repeat split. Qed.

Lemma two_state_other_valid :
  valid (with_self (other_vec 7%Z 8%Z) (two_state 7%Z 8%Z)) [8%Z].
Proof. exists 0%nat. vm_compute. repeat split. Qed.

Lemma two_state_apart (a : addr) :
  data_ (self (two_state 7%Z 8%Z)) = Some a ->
  data_ (other_vec 7%Z 8%Z) <> Some a.
Proof. vm_compute. congruence. Qed.

Lemma constructing_one_valid :
  valid (with_self (self (one_state 7%Z)) (constructing (one_state 7%Z)))
    [7%Z].
Proof. exists 0%nat. vm_compute. repeat split. Qed.

Lemma constructing_three_valid :
  valid (with_self (self (three_state 1%Z 2%Z 3%Z))
           (constructing (three_state 1%Z 2%Z 3%Z)))
    [1%Z; 2%Z; 3%Z].
Proof. exists 0%nat. vm_compute. repeat split. Qed.

Lemma one_state_invariant : invariant (one_state 7%Z).
Proof.
  split; [done|]. split; [done|]. intros a [= <-]. by exists [Some 7%Z].
Qed.

(** ** Where the code departs from the specification *)

(** C2: move construction leaves its source with a null pointer but the old
    capacity, and copy construction from an emptied vector that still owns a
    block yields a non-null pointer with capacity 0; both states break the
    invariant that the pointer is null exactly when the capacity is 0. *)
Theorem invariant_broken_by_move_and_copy :
  let v := one_state 7%Z in
  let e := emptied_state 7%Z in
  invariant v /\
  (exists src s',
     move_ctor (self v) (with_self empty_vec v) = Val src s' /\
     src = Vec 0 1 None /\
     ~ invariant (with_self src s')) /\
  invariant e /\
  (exists s',
     copy_ctor (self e) (with_self empty_vec e) = Val tt s' /\
     self s' = Vec 0 0 (Some 2%positive) /\
     ~ invariant s').
Proof.
  split; [|split; [|split]].
  - split; [done|]. split; [done|].
    intros a [= <-]. by exists [Some 7%Z].
  - eexists _, _. split; [reflexivity|]. split; [reflexivity|].
    intros (_ & [Hnull _] & _). by specialize (Hnull eq_refl).
  - split; [done|]. split; [done|].
    intros a [= <-]. by exists [None].
  - eexists. split; [vm_compute; reflexivity|]. split; [reflexivity|].
    intros (_ & [_ Hnull] & _). by specialize (Hnull eq_refl).
Qed.

(** C5: move construction hands the source's size, capacity, block and
    elements to the destination, and resets the source's pointer and size but
    not its capacity: the source is not in the default-constructed state, and
    a [push_back] on it writes through the null pointer. *)
Theorem move_ctor_source_keeps_capacity :
  let v := one_state 7%Z in
  exists src s',
    move_ctor (self v) (with_self empty_vec v) = Val src s' /\
    self s' = self v /\ elements s' = Some [7%Z] /\
    src = Vec 0 1 None /\ src <> empty_vec /\
    push_back 8%Z (with_self src s') = Undef.
Proof.
  eexists _, _. split; [reflexivity|]. by repeat split.
Qed.

(** C9: [shrink_to_fit] on an emptied vector that owns a block resets the
    pointer and the capacity, and the block stays allocated: the heap and the
    trace are unchanged, no [operator delete] happens. *)
Theorem shrink_to_fit_keeps_block :
  let e := emptied_state 7%Z in
  self e = Vec 0 1 (Some 1%positive) /\
  exists s',
    shrink_to_fit e = Val tt s' /\
    self s' = empty_vec /\
    heap s' = heap e /\
    heap s' !! 1%positive = Some [None] /\
    trace s' = trace e.
Proof.
  split; [reflexivity|].
  eexists. split; [apply shrink_to_fit_empty, emptied_state_valid|].
  by repeat split.
Qed.

(** ** The theorems at concrete vectors *)

Lemma strong_guarantee_witness :
  let s := with_ctor_faults [false; true] (three_state 1%Z 2%Z 3%Z) in
  (exists s',
     reserve 8 s = Exn ctor_failure s' /\
     self s' = self s /\ heap s' = heap s /\
     elements s' = Some [1%Z; 2%Z; 3%Z]) /\
  (exists s',
     push_back 4%Z s = Exn ctor_failure s' /\
     self s' = self s /\ heap s' = heap s /\
     elements s' = Some [1%Z; 2%Z; 3%Z]) /\
  (exists s',
     copy_ctor (self s) (with_self empty_vec s) = Exn ctor_failure s' /\
     heap s' = heap s /\
     elements (with_self (self s) s') = Some [1%Z; 2%Z; 3%Z]).
Proof.
  intros s.
  destruct (strong_guarantee s [1%Z; 2%Z; 3%Z] three_state_faulty_valid)
    as (Hreserve & Hpush & Hcopy).
  assert (Hrun1 : reserve 8 s = Exn ctor_failure (after (reserve 8) s))
    by (vm_compute; reflexivity).
  assert (Hrun2 : push_back 4%Z s
                  = Exn ctor_failure (after (push_back 4%Z) s))
    by (vm_compute; reflexivity).
  assert (Hrun3 : copy_ctor (self s) (with_self empty_vec s)
                  = Exn ctor_failure
                      (after (copy_ctor (self s)) (with_self empty_vec s)))
    by (vm_compute; reflexivity).
  split; [|split].
  - exists (after (reserve 8) s). split; [exact Hrun1|].
    destruct (Hreserve 8 ctor_failure _ Hrun1) as (Hself & Hheap & Hel & _).
    split; [exact Hself|]. split; [exact Hheap|exact Hel].
  - exists (after (push_back 4%Z) s). split; [exact Hrun2|].
    destruct (Hpush 4%Z ctor_failure _ Hrun2) as (Hself & Hheap & Hel & _).
    split; [exact Hself|]. split; [exact Hheap|exact Hel].
  - exists (after (copy_ctor (self s)) (with_self empty_vec s)).
    split; [exact Hrun3|].
    destruct (Hcopy empty_vec ctor_failure _ Hrun3) as (Hheap & Hel & _).
    split; [exact Hheap|exact Hel].
Defined.

Lemma push_back_sequence_witness :
  exists s',
    push_all [1%Z; 2%Z; 3%Z] fresh_state = Val tt s' /\
    size s' = Val 3 s' /\ elements s' = Some [1%Z; 2%Z; 3%Z].
Proof.
  destruct (push_back_sequence [1%Z; 2%Z; 3%Z] fresh_state eq_refl)
    as [Hresult Hruns].
  destruct Hruns as [s' Hs']; [constructor|constructor|by vm_compute|].
  exists s'. split; [exact Hs'|].
  destruct (Hresult s' Hs') as (Hsize & Hel & _).
  split; [exact Hsize|exact Hel].
Defined.

Lemma push_back_capacity_witness :
  let s1 := after (push_back 8%Z) (one_state 7%Z) in
  let s4 := after (push_all [1%Z; 2%Z; 3%Z; 4%Z]) fresh_state in
  capacity s1 = Val 3 s1 /\ capacity s4 = Val 7 s4.
Proof.
  intros s1 s4.
  destruct (@push_back_capacity Z _) as [Hstep Hseq].
  assert (Hrun1 : push_back 8%Z (one_state 7%Z) = Val tt s1)
    by (vm_compute; reflexivity).
  assert (Hrun4 : push_all [1%Z; 2%Z; 3%Z; 4%Z] fresh_state = Val tt s4)
    by (vm_compute; reflexivity).
  split.
  - destruct (Hstep _ _ _ _ one_state_valid Hrun1) as [_ Hgrow].
    destruct Hgrow as [Hcap _]; [by vm_compute|].
    vm_compute in Hcap. vm_compute. exact Hcap.
  - pose proof (Hseq _ fresh_state _ eq_refl Hrun4) as Hcap.
    vm_compute in Hcap. vm_compute. exact Hcap.
Defined.

Lemma reserve_capacity_witness :
  (exists s',
     reserve 4 (one_state 7%Z) = Val tt s' /\
     capacity s' = Val 4 s' /\ elements s' = Some [7%Z]) /\
  reserve 1 (one_state 7%Z) = Val tt (one_state 7%Z).
Proof.
  split.
  - destruct (reserve_capacity (one_state 7%Z) [7%Z] 4 one_state_valid)
      as (Hresult & _ & Hruns).
    destruct Hruns as [s' Hs']; [constructor|constructor|by vm_compute|].
    exists s'. split; [exact Hs'|].
    destruct (Hresult s' Hs') as (_ & Hel & Hcap & _).
    split; [apply Hcap; by vm_compute|exact Hel].
  - destruct (reserve_capacity (one_state 7%Z) [7%Z] 1 one_state_valid)
      as (_ & Hnop & _).
    apply Hnop. by vm_compute.
Defined.

Lemma erase_range_shifts_witness :
  let s := three_state 1%Z 2%Z 3%Z in
  (exists s',
     erase_range 0 2 s = Val 0 s' /\
     elements s' = Some [3%Z] /\ size s' = Val 1 s') /\
  erase_range 1 1 s = Val 1 s.
Proof.
  intros s. split.
  - destruct (erase_range_shifts s [1%Z; 2%Z; 3%Z] 0 2 three_state_valid)
      as (s' & Hrun & Hel & Hsize & _); [by vm_compute|by vm_compute|].
    exists s'. split; [exact Hrun|]. split; [exact Hel|].
    unfold size, get_size in *. vm_compute in Hsize. exact Hsize.
  - destruct (erase_range_shifts s [1%Z; 2%Z; 3%Z] 1 1 three_state_valid)
      as (s' & Hrun & _ & _ & _ & _ & Hnop); [by vm_compute|by vm_compute|].
    by rewrite <- (Hnop eq_refl) at 2.
Defined.

Lemma insert_then_erase_witness :
  exists s1 s2,
    insert 1 9%Z (three_state 1%Z 2%Z 3%Z) = Val 1 s1 /\
    elements s1 = Some [1%Z; 9%Z; 2%Z; 3%Z] /\
    erase 1 s1 = Val 1 s2 /\
    elements s2 = Some [1%Z; 2%Z; 3%Z].
Proof.
  destruct (insert_then_erase (three_state 1%Z 2%Z 3%Z) [1%Z; 2%Z; 3%Z]
              1 9%Z three_state_valid)
    as [Hresult Hruns]; [by vm_compute|].
  destruct Hruns as (r & s1 & Hs1); [constructor|constructor|by vm_compute|].
  destruct (Hresult r s1 Hs1) as (-> & Hel1 & s2 & Herase & Hel2 & _).
  exists s1, s2. split; [exact Hs1|]. split; [exact Hel1|].
  split; [exact Herase|exact Hel2].
Defined.

(** ** The further properties at concrete vectors *)

Lemma subscript_in_bounds_witness :
  let s := three_state 1%Z 2%Z 3%Z in
  subscript 1 s = Val 2%Z s /\ subscript 3 s = Undef.
Proof.
  intros s.
  destruct (subscript_in_bounds s [1%Z; 2%Z; 3%Z] 1 three_state_valid)
    as [Hin _].
  destruct (subscript_in_bounds s [1%Z; 2%Z; 3%Z] 3 three_state_valid)
    as [_ Hout].
  split; [apply Hin; reflexivity|apply Hout; by vm_compute].
Defined.

Lemma front_back_read_witness :
  let s := three_state 1%Z 2%Z 3%Z in
  front s = Val 1%Z s /\ back s = Val 3%Z s.
Proof.
  intros s. exact (front_back_read s [1%Z; 2%Z; 3%Z] three_state_valid).
Defined.

Lemma pop_back_removes_last_witness :
  (exists s',
     pop_back (three_state 1%Z 2%Z 3%Z) = Val tt s' /\
     valid s' [1%Z; 2%Z]) /\
  pop_back (emptied_state 7%Z) = Undef.
Proof.
  split.
  - destruct (pop_back_removes_last (three_state 1%Z 2%Z 3%Z)
                [1%Z; 2%Z; 3%Z] three_state_valid) as [Hpop _].
    destruct (Hpop [1%Z; 2%Z] 3%Z eq_refl) as (s' & a & Hrun & Hv & _).
    exists s'. split; [exact Hrun|exact Hv].
  - destruct (pop_back_removes_last (emptied_state 7%Z) []
                emptied_state_valid) as [_ Hempty].
    exact (Hempty eq_refl).
Defined.

Lemma push_back_pop_back_witness :
  let s := emptied_state 7%Z in
  exists s2,
    pop_back (after (push_back 8%Z) s) = Val tt s2 /\
    elements s2 = Some [] /\ self s2 = self s /\ heap s2 = heap s.
Proof.
  intros s.
  assert (Hrun : push_back 8%Z s = Val tt (after (push_back 8%Z) s))
    by (vm_compute; reflexivity).
  destruct (push_back_pop_back s [] 8%Z _ emptied_state_valid Hrun)
    as (s2 & Hpop & Hel & _ & _ & Hsame).
  exists s2. split; [exact Hpop|]. split; [exact Hel|].
  apply Hsame. by vm_compute.
Defined.

Lemma clear_keeps_capacity_witness :
  exists s',
    clear (three_state 1%Z 2%Z 3%Z) = Val tt s' /\
    elements s' = Some [] /\ capacity_ (self s') = 3.
Proof.
  destruct (clear_keeps_capacity (three_state 1%Z 2%Z 3%Z) [1%Z; 2%Z; 3%Z]
              three_state_valid) as (s' & Hrun & _ & Hel & _ & Hcap & _).
  exists s'. split; [exact Hrun|]. split; [exact Hel|].
  vm_compute in Hcap. exact Hcap.
Defined.

Lemma destructor_releases_witness :
  exists s',
    destructor (three_state 1%Z 2%Z 3%Z) = Val tt s' /\
    heap s' !! 2%positive = None.
Proof.
  destruct (destructor_releases (three_state 1%Z 2%Z 3%Z) [1%Z; 2%Z; 3%Z]
              three_state_valid) as (s' & Hrun & _ & Hgone & _).
  exists s'. split; [exact Hrun|]. apply Hgone. by vm_compute.
Defined.

Lemma build_and_destroy_witness :
  exists s1 s2,
    push_all [1%Z; 2%Z; 3%Z] fresh_state = Val tt s1 /\
    destructor s1 = Val tt s2 /\ heap s2 = ∅.
Proof.
  assert (Hrun : push_all [1%Z; 2%Z; 3%Z] fresh_state
                 = Val tt (three_state 1%Z 2%Z 3%Z))
    by (vm_compute; reflexivity).
  destruct (build_and_destroy _ fresh_state _ eq_refl Hrun)
    as (s2 & Hdel & Hheap).
  exists (three_state 1%Z 2%Z 3%Z), s2.
  split; [exact Hrun|]. split; [exact Hdel|exact Hheap].
Defined.

Lemma push_back_allocation_count_witness :
  allocations (trace (after (push_all [1%Z; 2%Z; 3%Z; 4%Z]) fresh_state))
    = 3%nat.
Proof.
  assert (Hrun : push_all [1%Z; 2%Z; 3%Z; 4%Z] fresh_state
                 = Val tt (after (push_all [1%Z; 2%Z; 3%Z; 4%Z]) fresh_state))
    by (vm_compute; reflexivity).
  pose proof (push_back_allocation_count _ fresh_state _ eq_refl Hrun)
    as Hcount.
  vm_compute in Hcount. vm_compute. exact Hcount.
Defined.

Lemma push_back_within_capacity_witness :
  let s := emptied_state 7%Z in
  exists s',
    push_all [8%Z] s = Val tt s' /\
    elements s' = Some [8%Z] /\
    allocations (trace s') = allocations (trace s).
Proof.
  intros s.
  destruct (push_back_within_capacity [8%Z] s [] emptied_state_valid)
    as (Hresult & _ & _ & Hruns); [by vm_compute|].
  destruct Hruns as [s' Hs']; [constructor|].
  exists s'. split; [exact Hs'|].
  destruct (Hresult s' Hs') as (_ & _ & Hel & Hcount & _).
  split; [exact Hel|exact Hcount].
Defined.

Lemma copy_ctor_copies_witness :
  let v := three_state 1%Z 2%Z 3%Z in
  exists s',
    copy_ctor (self v) (constructing v) = Val tt s' /\
    elements s' = Some [1%Z; 2%Z; 3%Z] /\
    elements (with_self (self v) s') = Some [1%Z; 2%Z; 3%Z].
Proof.
  intros v.
  destruct (copy_ctor_copies (constructing v) (self v) [1%Z; 2%Z; 3%Z]
              constructing_three_valid) as (Hresult & _ & Hruns).
  destruct Hruns as [s' Hs']; [constructor|constructor|].
  exists s'. split; [exact Hs'|].
  destruct (Hresult s' Hs') as (Hel & _ & _ & Hsrc & _).
  split; [exact Hel|exact Hsrc].
Defined.

Lemma copy_is_independent_witness :
  let v := three_state 1%Z 2%Z 3%Z in
  let s1 := after (copy_ctor (self v)) (constructing v) in
  exists s2,
    clear s1 = Val tt s2 /\
    elements s2 = Some [] /\
    elements (with_self (self v) s2) = Some [1%Z; 2%Z; 3%Z].
Proof.
  intros v s1.
  assert (Hrun : copy_ctor (self v) (constructing v) = Val tt s1)
    by (vm_compute; reflexivity).
  assert (Hclear : clear s1 = Val tt (after clear s1))
    by (vm_compute; reflexivity).
  destruct (copy_is_independent (constructing v) (self v) [1%Z; 2%Z; 3%Z] s1
              constructing_three_valid Hrun) as (_ & _ & Hcleared & _).
  exists (after clear s1). split; [exact Hclear|].
  exact (Hcleared _ Hclear).
Defined.

Lemma copy_assign_replaces_witness :
  let s := two_state 7%Z 8%Z in
  let o := other_vec 7%Z 8%Z in
  (exists s',
     copy_assign (Some o) s = Val tt s' /\
     elements s' = Some [8%Z] /\
     elements (with_self o s') = Some [8%Z]) /\
  copy_assign None s = Val tt s.
Proof.
  intros s o.
  destruct (copy_assign_replaces s o [7%Z] [8%Z] two_state_valid
              two_state_other_valid two_state_apart)
    as (Hresult & _ & _ & Hruns & Hself).
  split; [|exact Hself].
  destruct Hruns as [s' Hs']; [constructor|constructor|].
  exists s'. split; [exact Hs'|].
  destruct (Hresult s' Hs') as (Hel & _ & Hsrc & _).
  split; [exact Hel|exact Hsrc].
Defined.

Lemma move_assign_hands_over_witness :
  let s := two_state 7%Z 8%Z in
  let o := other_vec 7%Z 8%Z in
  exists s',
    move_assign (Some o) s = Val (Some (self s)) s' /\
    elements s' = Some [8%Z] /\
    elements (with_self (self s) s') = Some [7%Z].
Proof.
  intros s o.
  destruct (move_assign_hands_over s o [7%Z] [8%Z] two_state_valid
              two_state_other_valid two_state_apart)
    as ((s' & Hrun & _ & _ & _ & Hel & Hold & _) & _).
  exists s'. split; [exact Hrun|]. split; [exact Hel|exact Hold].
Defined.

Lemma shrink_to_fit_fits_witness :
  exists s',
    shrink_to_fit (popped_state 1%Z 2%Z 3%Z) = Val tt s' /\
    elements s' = Some [1%Z; 2%Z] /\ capacity s' = Val 2 s'.
Proof.
  destruct (shrink_to_fit_fits (popped_state 1%Z 2%Z 3%Z) [1%Z; 2%Z]
              popped_state_valid) as (Hresult & _ & _ & Hruns); [done|].
  destruct Hruns as [s' Hs']; [constructor|constructor|].
  exists s'. split; [exact Hs'|].
  destruct (Hresult s' Hs') as (Hel & _ & Hcap & _).
  split; [exact Hel|]. vm_compute in Hcap. exact Hcap.
Defined.

Lemma insert_at_end_is_push_back_witness :
  let s := three_state 1%Z 2%Z 3%Z in
  insert 3 4%Z s = bind (push_back 4%Z) (fun _ => ret 3) s.
Proof.
  intros s.
  pose proof (insert_at_end_is_push_back s [1%Z; 2%Z; 3%Z] 4%Z
                three_state_valid) as Hsame.
  vm_compute in Hsame. vm_compute. exact Hsame.
Defined.


Lemma reserve_overflow_witness :
  exists s' d,
    reserve (2 ^ 62) (@fresh_state Z) = Val tt s' /\
    self s' = Vec 0 (2 ^ 62) (Some d) /\
    push_back 7%Z s' = Undef.
Proof.
  destruct (reserve_overflow (@fresh_state Z) (2 ^ 62)
              (valid_empty fresh_state eq_refl))
    as (s' & d & Hrun & Hself & _ & _ & Hpush);
    [by vm_compute|by vm_compute|reflexivity|].
  exists s', d. split; [exact Hrun|]. split; [exact Hself|exact (Hpush _)].
Defined.

Lemma erase_position_witness :
  let s := three_state 1%Z 2%Z 3%Z in
  (exists s', erase 1 s = Val 1 s' /\ elements s' = Some [1%Z; 3%Z]) /\
  erase 3 s = Undef.
Proof.
  intros s.
  destruct (erase_position s [1%Z; 2%Z; 3%Z] 1 three_state_valid)
    as (Hin & _ & _).
  destruct (erase_position s [1%Z; 2%Z; 3%Z] 3 three_state_valid)
    as (_ & Hout & _).
  split; [|apply Hout; by vm_compute].
  destruct (Hin 2%Z eq_refl) as (s' & Hrun & Hel & _).
  exists s'. split; [exact Hrun|exact Hel].
Defined.

Lemma move_ctor_takes_over_witness :
  let v := one_state 7%Z in
  exists other' s',
    move_ctor (self v) (constructing v) = Val other' s' /\
    valid s' [7%Z] /\ data_ other' = None.
Proof.
  intros v.
  destruct (move_ctor_takes_over (constructing v) (self v) [7%Z]
              constructing_one_valid)
    as (other' & s' & Hrun & Hv & _ & _ & _ & _ & _ & _ & Hnull & _).
  exists other', s'. split; [exact Hrun|]. split; [exact Hv|exact Hnull].
Defined.

Lemma mutators_keep_invariant_witness :
  let s := one_state 7%Z in
  invariant (after (push_back 8%Z) s) /\ invariant (after clear s).
Proof.
  intros s.
  destruct (mutators_keep_invariant s [7%Z] one_state_valid
              one_state_invariant) as (Hpush & _ & Hclear & _).
  split.
  - apply (Hpush 8%Z). vm_compute. reflexivity.
  - apply Hclear. vm_compute. reflexivity.
Defined.
